(** * Verification of llm-hub: circuit breaker, model discovery, routing,
    aggregation, predictive maintenance and recovery bookkeeping.

    Shallow embedding of the Python sources under
    units/lm-studio-bridge, units/unified-gateway and units/health-monitor.
    Clock readings ([asyncio.get_event_loop().time()], [time.time()]) and
    the outcome of every network call are inputs supplied by the
    environment. *)

From Stdlib Require Import ZArith QArith Lia Lqa.
From stdpp Require Import base gmap sets list strings.

Open Scope Z_scope.

(* ===================================================================== *)
(** ** units/lm-studio-bridge/logic/http_client.py : LMStudioClient *)
(* ===================================================================== *)

Module HttpClient.

(** The circuit-breaker fields of an [LMStudioClient] instance. *)
Record client := mkClient {
  circuit_breaker_failures : Z;
  circuit_breaker_last_failure : Z;
  is_circuit_open : bool;
  connection_healthy : bool;
  last_successful_request : Z
}.

(** Constants fixed in [__init__]. *)
Definition circuit_breaker_threshold : Z := 5.
Definition circuit_breaker_timeout : Z := 60.

(** [__init__] : the breaker starts closed with no failure. *)
Definition init_client (now : Z) : client :=
  mkClient 0 0 false true now.

(** [_check_circuit_breaker]: returns the updated client and whether a
    request is allowed. *)
Definition check_circuit_breaker (current_time : Z) (c : client) : client * bool :=
  let c' :=
    if is_circuit_open c
       && bool_decide (current_time - circuit_breaker_last_failure c
                       > circuit_breaker_timeout)
    then mkClient 0 (circuit_breaker_last_failure c) false
                  (connection_healthy c) (last_successful_request c)
    else c in
  (c', negb (is_circuit_open c')).

(** [_record_success]. *)
Definition record_success (now : Z) (c : client) : client :=
  mkClient 0 (circuit_breaker_last_failure c) false true now.

(** [_record_failure]. *)
Definition record_failure (now : Z) (c : client) : client :=
  let n := circuit_breaker_failures c + 1 in
  mkClient n now
    (if bool_decide (n >= circuit_breaker_threshold) then true
     else is_circuit_open c)
    false (last_successful_request c).

(** The outcome of one [self.client.request(...)] attempt. *)
Inductive attempt_outcome :=
  | Response (status_code : Z)   (** a response came back *)
  | TimeoutExc                   (** [httpx.TimeoutException] *)
  | RequestErr.                  (** any other [httpx.RequestError] *)

(** [response.raise_for_status()] passes exactly on 2xx. *)
Definition is_success_code (code : Z) : bool :=
  bool_decide (200 <= code < 300).

(** The terminal test of the [except httpx.HTTPStatusError] branch. *)
Definition is_terminal_client_error (code : Z) : bool :=
  bool_decide (400 <= code < 500) && negb (bool_decide (code = 429)).

(** How a call of [_make_request] ends. *)
Inductive request_result :=
  | ReqOk                     (** parsed body returned *)
  | ErrCircuitOpen            (** [NetworkError("Circuit breaker is open ...")] *)
  | ErrRetriesExhausted.      (** [NetworkError("... failed after N attempts")] *)

(** The environment of one call: the clock reading and outcome of the
    attempt with index [k]. *)
Definition env := nat -> Z * attempt_outcome.

(** The retry loop [for attempt in range(self.max_retries + 1)], starting
    at attempt index [k] with [fuel] attempts left.  Returns the client,
    the result and the number of HTTP attempts issued.  Sleeps between
    attempts do not change the breaker state and are not modelled. *)
Fixpoint attempts (e : env) (fuel k : nat) (c : client)
  : client * request_result * nat :=
  match fuel with
  | O => (c, ErrRetriesExhausted, O)
  | S fuel' =>
      let '(t, o) := e k in
      let continue_after_failure :=
        let '(c', r, n) := attempts e fuel' (S k) (record_failure t c) in
        (c', r, S n) in
      match o with
      | Response code =>
          if is_success_code code then (record_success t c, ReqOk, 1%nat)
          else if is_terminal_client_error code
          then (record_failure t c, ErrRetriesExhausted, 1%nat)
          else continue_after_failure
      | TimeoutExc | RequestErr => continue_after_failure
      end
  end.

(** [_make_request]. *)
Definition make_request (max_retries : nat) (now : Z) (e : env) (c : client)
  : client * request_result * nat :=
  let '(c1, allowed) := check_circuit_breaker now c in
  if negb allowed then (c1, ErrCircuitOpen, O)
  else attempts e (S max_retries) O c1.

(** [max_retries] default of [__init__]. *)
Definition default_max_retries : nat := 3.

(** A run of consecutive [_record_failure] calls at the given times. *)
Fixpoint record_failures (ts : list Z) (c : client) : client :=
  match ts with
  | [] => c
  | t :: ts' => record_failures ts' (record_failure t c)
  end.

(** A series of [_make_request] calls, each with its [max_retries], clock
    reading and network environment. *)
Fixpoint run_calls (calls : list (nat * Z * env)) (c : client)
  : client * list (request_result * nat) :=
  match calls with
  | [] => (c, [])
  | (mr, now, e) :: calls' =>
      let '(c1, r, n) := make_request mr now e c in
      let '(c2, rs) := run_calls calls' c1 in
      (c2, (r, n) :: rs)
  end.

(** [health_check]: [True] exactly when [_make_request] returns. *)
Definition health_check (max_retries : nat) (now : Z) (e : env) (c : client)
  : client * bool * nat :=
  let '(c', r, n) := make_request max_retries now e c in
  (c', match r with ReqOk => true | _ => false end, n).

(** [attempt_recovery]: the breaker is reset first; [close_ok] is whether
    closing and recreating the [httpx.AsyncClient] went through (when it
    raises, [False] is returned without a health check). *)
Definition attempt_recovery (close_ok : bool) (max_retries : nat) (now : Z)
    (e : env) (c : client) : client * bool * nat :=
  let c0 := mkClient 0 (circuit_breaker_last_failure c) false
              (connection_healthy c) (last_successful_request c) in
  if close_ok then health_check max_retries now e c0 else (c0, false, O).

(** The client operations that change the breaker. *)
Inductive client_op :=
  | OpRequest (max_retries : nat) (now : Z) (e : env)
  | OpRecovery (close_ok : bool) (max_retries : nat) (now : Z) (e : env).

Definition run_op (op : client_op) (c : client) : client :=
  match op with
  | OpRequest mr now e => (make_request mr now e c).1.1
  | OpRecovery ok mr now e => (attempt_recovery ok mr now e c).1.1
  end.

Definition run_ops (ops : list client_op) (c : client) : client :=
  fold_left (fun c op => run_op op c) ops c.

End HttpClient.

(* ===================================================================== *)
(** ** units/lm-studio-bridge/logic/discovery.py : ModelDiscovery *)
(* ===================================================================== *)

Module Discovery.

(** One entry of the [data] array returned by [/v1/models]: its ["id"]
    field ([None] when absent or null) and the rest of the object. *)
Record model_data := mkModelData {
  md_id : option string;
  md_object : option string
}.

(** Python truthiness of [model_data.get("id")]: [None] and [""] are
    falsy. *)
Definition truthy_id (o : option string) : option string :=
  match o with
  | Some s => if bool_decide (s = ""%string) then None else Some s
  | None => None
  end.

(** The registry fields [self.models] and [self.model_ids]. *)
Record discovery := mkDiscovery {
  models : gmap string model_data;
  model_ids : gset string
}.

(** [__init__]: both empty. *)
Definition init_discovery : discovery := mkDiscovery ∅ ∅.

(** Log events of [_handle_model_added] and [_handle_model_removed]. *)
Inductive event :=
  | Added (model_id : string)
  | Removed (model_id : string).

#[global] Instance event_eq_dec : EqDecision event.
Proof. solve_decision. Defined.

(** The [for model_data in models_data] loop.  [old_ids] is
    [self.model_ids], which the loop reads but does not update; the
    accumulator holds [current_model_ids], [self.models] and the events. *)
Fixpoint process_models (old_ids : gset string) (l : list model_data)
    (current : gset string) (ms : gmap string model_data)
  : gset string * gmap string model_data * list event :=
  match l with
  | [] => (current, ms, [])
  | d :: l' =>
      match truthy_id (md_id d) with
      | None => process_models old_ids l' current ms
      | Some mid =>
          let current' := {[ mid ]} ∪ current in
          if bool_decide (mid ∈ old_ids)
          then process_models old_ids l' current' (<[mid := d]> ms)
          else
            let '(cur, ms', evs) :=
              process_models old_ids l' current' (<[mid := d]> ms) in
            (cur, ms', Added mid :: evs)
      end
  end.

(** The [for model_id in removed_models] loop; [_handle_model_removed]
    deletes only when the key is present, which [delete] does too. *)
Fixpoint remove_models (l : list string) (ms : gmap string model_data)
  : gmap string model_data * list event :=
  match l with
  | [] => (ms, [])
  | mid :: l' =>
      let '(ms', evs) := remove_models l' (delete mid ms) in
      (ms', Removed mid :: evs)
  end.

(** The ids the loop keeps, in catalog order. *)
Definition catalog_ids (l : list model_data) : list string :=
  omap (fun d => truthy_id (md_id d)) l.

(** [_discover_models] after a successful [get_models()] call. *)
Definition discover_models (catalog : list model_data) (st : discovery)
  : discovery * list event :=
  let '(current, ms, added) :=
    process_models (model_ids st) catalog ∅ (models st) in
  let removed_models := model_ids st ∖ current in
  let '(ms', removed) := remove_models (elements removed_models) ms in
  (mkDiscovery ms' current, added ++ removed).

(** [_discover_models] with the outcome of [get_models()]: [None] when it
    raised, in which case [ServiceError] is raised and nothing changed. *)
Definition discover_cycle (fetched : option (list model_data)) (st : discovery)
  : option (discovery * list event) :=
  match fetched with
  | None => None
  | Some catalog => Some (discover_models catalog st)
  end.

(** [force_discovery]: the same [_discover_models], then [len(self.models)]. *)
Definition force_discovery (fetched : option (list model_data)) (st : discovery)
  : option (discovery * nat) :=
  match discover_cycle fetched st with
  | None => None
  | Some (st', _) => Some (st', size (models st'))
  end.

(** States reachable from [__init__] by completed cycles (polling cycle
    or [force_discovery], which both run [_discover_models]). *)
Inductive reachable : discovery -> Prop :=
  | reach_init : reachable init_discovery
  | reach_cycle st catalog st' evs :
      reachable st ->
      discover_cycle (Some catalog) st = Some (st', evs) ->
      reachable st'.

(** One iteration of [_polling_loop].  Inputs: the poll interval [base],
    the throttle delay added by the resource manager ([0] when there is
    none, as in [lifecycle.py]), the counter [consecutive_failures],
    whether [_discover_models] succeeded and whether [_attempt_recovery]
    would succeed.  Output: the new counter and the total time slept
    before the next cycle ([asyncio.sleep] of a negative delay returns at
    once). *)
Definition max_consecutive_failures : nat := 3.

Definition poll_iteration (base extra : Z) (consecutive_failures : nat)
    (discovery_ok recovery_ok : bool) : nat * Z :=
  let poll_delay := base + extra in
  if discovery_ok then (O, poll_delay)
  else
    let cf := S consecutive_failures in
    if bool_decide (max_consecutive_failures <= cf)%nat then
      if recovery_ok then (O, poll_delay)
      else
        let extended_interval := Z.min (base * 2) 300 in
        (cf, Z.max 0 (extended_interval - base) + poll_delay)
    else (cf, poll_delay).

(** [get_model]. *)
Definition get_model (model_id : string) (st : discovery) : option model_data :=
  models st !! model_id.

(** [has_models]: [len(self.models) > 0]. *)
Definition has_models (st : discovery) : bool :=
  bool_decide (0 < size (models st))%nat.

(** The last catalog entry whose usable id is [model_id]. *)
Definition last_entry_for (model_id : string) (catalog : list model_data)
  : option model_data :=
  last (filter (fun d => truthy_id (md_id d) = Some model_id) catalog).

(** Several iterations of [_polling_loop]: each element is whether
    [_discover_models] and [_attempt_recovery] succeed in that iteration;
    the result is the final counter and the waits. *)
Fixpoint poll_run (base extra : Z) (cf : nat) (outcomes : list (bool * bool))
  : nat * list Z :=
  match outcomes with
  | [] => (cf, [])
  | (ok, rec_ok) :: rest =>
      let '(cf', w) := poll_iteration base extra cf ok rec_ok in
      let '(cf'', ws) := poll_run base extra cf' rest in
      (cf'', w :: ws)
  end.

(** [_attempt_recovery] with a client that has [attempt_recovery] (an
    [LMStudioClient]): the client's own recovery first ([close_ok] as
    there; it catches every exception itself), then, when it failed,
    [health_check] with its own clock reading and network.  Returns the
    client, the result and the number of HTTP attempts of both calls. *)
Definition attempt_recovery (close_ok : bool) (mr : nat)
    (now1 : Z) (e1 : HttpClient.env) (now2 : Z) (e2 : HttpClient.env)
    (c : HttpClient.client) : HttpClient.client * bool * nat :=
  let '(c1, ok1, n1) := HttpClient.attempt_recovery close_ok mr now1 e1 c in
  if ok1 then (c1, true, n1)
  else
    let '(c2, ok2, n2) := HttpClient.health_check mr now2 e2 c1 in
    (c2, ok2, (n1 + n2)%nat).

End Discovery.

(* ===================================================================== *)
(** ** units/unified-gateway/logic : ServiceDiscovery, RequestRouter *)
(* ===================================================================== *)

Module Gateway.

(** The ["tools"] value of a registry entry, the JSON of [/mcp/tools]:
    an object (its keys) or any other JSON value. *)
Inductive tools_json :=
  | ToolsDict (keys : list string)
  | ToolsOther.

(** A [service_registry] value ([last_seen] is not read by routing). *)
Record service_info := mkServiceInfo {
  url : string;
  tools : tools_json;
  healthy : bool
}.

(** [self.service_registry]: a Python dict, iterated in insertion order. *)
Definition registry := list (string * service_info).

(** [ServiceDiscovery.get_service_for_tool]. *)
Fixpoint get_service_for_tool (reg : registry) (tool_name : string)
  : option string :=
  match reg with
  | [] => None
  | (_, info) :: reg' =>
      if healthy info then
        match tools info with
        | ToolsDict keys =>
            if bool_decide (tool_name ∈ keys) then Some (url info)
            else get_service_for_tool reg' tool_name
        | ToolsOther => get_service_for_tool reg' tool_name
        end
      else get_service_for_tool reg' tool_name
  end.

(** An entry that [get_service_for_tool] accepts for [tool_name]. *)
Definition serves (tool_name : string) (info : service_info) : Prop :=
  healthy info = true /\ exists keys, tools info = ToolsDict keys /\ tool_name ∈ keys.

(** Outcome of [client.post(target_url, ...)] inside
    [httpx.AsyncClient(timeout=30.0)]: a response with its status code and
    its body parsed by [response.json()] ([None] when that raises), a
    [httpx.TimeoutException], or any other exception. *)
Inductive post_outcome :=
  | PostResponse (status_code : Z) (json : option string)
  | PostTimeout
  | PostError (msg : string).

(** The network, given the target URL and the client timeout. *)
Definition http_env := string -> Q -> post_outcome.

(** Results of [route_tool_request]; [status] gives the ["status"] key. *)
Inductive route_result :=
  | RouteSuccess (result : string) (service : string)
  | RouteServiceError (status_code : Z) (service : string)
  | RouteTimeout (service : string)
  | RouteForwardError (service : string)
  | RouteServiceNotFound (tool_name : string).

Definition status (r : route_result) : string :=
  match r with
  | RouteSuccess _ _ => "success"
  | RouteServiceError _ _ => "service_error"
  | RouteTimeout _ => "timeout"
  | RouteForwardError _ => "forward_error"
  | RouteServiceNotFound _ => "service_not_found"
  end.

Definition forward_timeout : Q := 30.

(** [RequestRouter._forward_request]. *)
Definition forward_request (net : http_env) (service_url tool_name : string)
  : route_result :=
  let target_url := (service_url +:+ "/mcp/tools/" +:+ tool_name)%string in
  match net target_url forward_timeout with
  | PostResponse code body =>
      if bool_decide (code = 200) then
        match body with
        | Some result => RouteSuccess result service_url
        | None => RouteForwardError service_url
        end
      else RouteServiceError code service_url
  | PostTimeout => RouteTimeout service_url
  | PostError _ => RouteForwardError service_url
  end.

(** [RequestRouter.route_tool_request]; [if not service_url] also rejects
    the empty string. *)
Definition route_tool_request (net : http_env) (reg : registry)
    (tool_name : string) : route_result :=
  match get_service_for_tool reg tool_name with
  | None => RouteServiceNotFound tool_name
  | Some service_url =>
      if bool_decide (service_url = ""%string) then RouteServiceNotFound tool_name
      else forward_request net service_url tool_name
  end.

(** [_update_service_registry]: assigning an existing key keeps its
    position, a new key goes last. *)
Fixpoint dict_set (k : string) (v : service_info) (reg : registry) : registry :=
  match reg with
  | [] => [(k, v)]
  | (k', v') :: reg' =>
      if bool_decide (k = k') then (k, v) :: reg' else (k', v') :: dict_set k v reg'
  end.

Definition update_service_registry (bridge_url service_name : string)
    (tools_data : tools_json) (reg : registry) : registry :=
  dict_set service_name (mkServiceInfo bridge_url tools_data true) reg.

(** [_remove_service]. *)
Definition remove_service (service_name : string) (reg : registry) : registry :=
  filter (fun p => p.1 <> service_name) reg.

Definition bridge_name : string := "lm-studio-bridge".

(** [_discover_services].  [health]: the status of [GET {bridge}/health]
    ([None] when the request raises); [tools_resp]: the status of
    [GET {bridge}/mcp/tools] and its parsed JSON ([None] when the request
    raises, inner [None] when [.json()] raises). *)
Definition discover_services (bridge_url : string) (health : option Z)
    (tools_resp : option (Z * option tools_json)) (reg : registry) : registry :=
  match health with
  | None => remove_service bridge_name reg
  | Some hc =>
      if bool_decide (hc <> 200) then remove_service bridge_name reg
      else
        match tools_resp with
        | None => remove_service bridge_name reg
        | Some (tc, body) =>
            if bool_decide (tc = 200) then
              match body with
              | Some tools_data => update_service_registry bridge_url bridge_name tools_data reg
              | None => remove_service bridge_name reg
              end
            else remove_service bridge_name reg
        end
  end.

(** [get_registry_status]: number of services and of healthy ones. *)
Definition registry_status (reg : registry) : nat * nat :=
  (length reg, length (filter (fun p => healthy p.2 = true) reg)).

(** Python's [<=] on strings (code-point order, ASCII part). *)
Fixpoint string_leb (a b : string) : bool :=
  match a, b with
  | EmptyString, _ => true
  | String _ _, EmptyString => false
  | String x a', String y b' =>
      let nx := Ascii.nat_of_ascii x in
      let ny := Ascii.nat_of_ascii y in
      if (nx <? ny)%nat then true
      else if (ny <? nx)%nat then false
      else string_leb a' b'
  end.

Fixpoint insert_sorted (x : string) (l : list string) : list string :=
  match l with
  | [] => [x]
  | y :: l' => if string_leb x y then x :: y :: l' else y :: insert_sorted x l'
  end.

(** [sorted(services)]. *)
Definition sort_strings (l : list string) : list string :=
  fold_right insert_sorted [] l.

(** [",".join(...)]. *)
Fixpoint join_comma (l : list string) : string :=
  match l with
  | [] => ""
  | [x] => x
  | x :: l' => x +:+ "," +:+ join_comma l'
  end.

(** [RequestRouter._get_next_service]; [None] is the [ValueError]. *)
Definition get_next_service (services : list string) (counters : gmap string nat)
  : option (string * gmap string nat) :=
  match services with
  | [] => None
  | _ =>
      let service_key := join_comma (sort_strings services) in
      let counter := default O (counters !! service_key) in
      match services !! (counter mod length services)%nat with
      | Some selected => Some (selected, <[service_key := S counter]> counters)
      | None => None
      end
  end.

(** [n] successive calls with the same list. *)
Fixpoint next_services (n : nat) (services : list string) (counters : gmap string nat)
  : option (list string * gmap string nat) :=
  match n with
  | O => Some ([], counters)
  | S n' =>
      match get_next_service services counters with
      | None => None
      | Some (x, counters') =>
          match next_services n' services counters' with
          | None => None
          | Some (xs, counters'') => Some (x :: xs, counters'')
          end
      end
  end.

(** [_discovery_loop]: successive [_discover_services] rounds of one
    [ServiceDiscovery], whose [bridge_url] is fixed in [__init__]. *)
Definition discovery_rounds (bridge_url : string)
    (rounds : list (option Z * option (Z * option tools_json))) (reg : registry)
  : registry :=
  fold_left (fun reg r => discover_services bridge_url r.1 r.2 reg) rounds reg.

End Gateway.

(* ===================================================================== *)
(** ** units/unified-gateway/logic/aggregator.py : ResponseAggregator *)
(* ===================================================================== *)

Module Aggregator.

(** A [call_info] dict: its ["service"] key and the rest of the call. *)
Record call_info := mkCall {
  call_service : option string;
  call_tool : option string
}.

Definition service_of (c : call_info) : string :=
  match call_service c with Some s => s | None => "unknown" end.

(** The response dicts built by the aggregator. *)
Record response := mkResponse {
  resp_status : string;
  resp_result : option string;
  resp_error : option string;
  resp_service : option string
}.

Inductive aggregate_result :=
  | AggResponse (r : response)
  | AggAllFailed (errors : list (string * string)).

(** How the awaited [_simulate_service_call] ends under
    [asyncio.wait_for(..., timeout=30)]. *)
Inductive sim_outcome :=
  | SimDone
  | SimTimeout
  | SimRaise (msg : string).

Definition aggregator_timeout : Q := 30.

(** [_simulate_service_call]: [await asyncio.sleep(0.1)], which always
    finishes before [aggregator_timeout]. *)
Definition simulate_delay : Q := 1 # 10.

Definition simulate_service_call (_ : call_info) : sim_outcome :=
  if Qlt_le_dec simulate_delay aggregator_timeout then SimDone else SimTimeout.

(** [_execute_single_call]. *)
Definition execute_single_call (c : call_info) : response :=
  mkResponse "success" (Some "Single call executed") None (Some (service_of c)).

(** [_execute_call_with_timeout], for a given behaviour of the awaited
    call. *)
Definition execute_call_with_timeout (sim : call_info -> sim_outcome)
    (c : call_info) : response :=
  match sim c with
  | SimDone =>
      mkResponse "success" (Some "Call executed successfully") None
        (Some (service_of c))
  | SimTimeout =>
      mkResponse "timeout" None (Some "Service timeout") (Some (service_of c))
  | SimRaise msg =>
      mkResponse "service_error" None (Some msg) (Some (service_of c))
  end.

(** The "find first successful result" loop. *)
Fixpoint first_success (rs : list response) : option response :=
  match rs with
  | [] => None
  | r :: rs' =>
      if bool_decide (resp_status r = "success"%string) then Some r
      else first_success rs'
  end.

(** The error array: every result dict carrying an ["error"] key. *)
Fixpoint collect_errors (rs : list response) : list (string * string) :=
  match rs with
  | [] => []
  | r :: rs' =>
      match resp_error r with
      | Some err =>
          (default "unknown" (resp_service r), err) :: collect_errors rs'
      | None => collect_errors rs'
      end
  end.

(** The ["error"] text of a failed call. *)
Definition error_text (o : sim_outcome) : string :=
  match o with
  | SimDone => ""
  | SimTimeout => "Service timeout"
  | SimRaise msg => msg
  end.

(** [_execute_parallel_calls]; [asyncio.gather] keeps input order. *)
Definition execute_parallel_calls (sim : call_info -> sim_outcome)
    (calls : list call_info) : aggregate_result :=
  let results := map (execute_call_with_timeout sim) calls in
  match first_success results with
  | Some r => AggResponse r
  | None => AggAllFailed (collect_errors results)
  end.

(** [aggregate_responses]. *)
Definition aggregate_responses (calls : list call_info) : aggregate_result :=
  match calls with
  | [] => AggResponse (mkResponse "no_calls" None
                         (Some "No service calls provided") None)
  | [c] => AggResponse (execute_single_call c)
  | _ => execute_parallel_calls simulate_service_call calls
  end.

End Aggregator.

(* ===================================================================== *)
(** ** units/health-monitor/predictive_maintenance.py *)
(* ===================================================================== *)

Module Predictive.

Open Scope Q_scope.

(** Float comparison [<] as a decidable relation on rationals. *)
#[global] Instance Qlt_decision : RelDecision Qlt :=
  fun x y =>
    match Qlt_le_dec x y with
    | left h => left h
    | right h => right (Qle_not_lt y x h)
    end.

(** A history buffer: [(timestamp, value)] pairs, oldest first.  Floats
    are modelled by rationals. *)
Definition history := list (Q * Q).

Definition min_data_points : nat := 5.
Definition memory_growth_threshold : Q := 5.
Definition cpu_sustained_threshold : Q := 80.
Definition disk_growth_threshold : Q := 10.
Definition error_frequency_threshold : nat := 3.

(** [[(t, v) for t, v in data if t > current_time - window_seconds]]. *)
Definition in_window (data : history) (window_seconds current_time : Q)
  : history :=
  filter (fun p => bool_decide (current_time - window_seconds < fst p)) data.

(** [_calculate_trend]; [current_time] is the [time.time()] reading. *)
Definition calculate_trend (data : history) (window_seconds current_time : Q)
  : Q :=
  if bool_decide (length data < min_data_points)%nat then 0 else
  let window_data := in_window data window_seconds current_time in
  if bool_decide (length window_data < 2)%nat then 0 else
  let times := map fst window_data in
  let values := map snd window_data in
  let time_span := default 0 (last times) - default 0 (head times) in
  if Qeq_bool time_span 0 then 0 else
  let value_change := default 0 (last values) - default 0 (head values) in
  let trend_per_second := value_change / time_span in
  let trend_per_hour := trend_per_second * 3600 in
  trend_per_hour.

(** [_get_recent_values]. *)
Definition get_recent_values (data : history) (window_seconds current_time : Q)
  : list Q :=
  map snd (in_window data window_seconds current_time).

Definition mean (l : list Q) : Q :=
  fold_right Qplus 0 l / inject_Z (Z.of_nat (length l)).

(** The maintenance actions [_analyze_patterns] can schedule. *)
Inductive action :=
  | MemoryCleanup
  | CpuOptimization
  | DiskCleanup
  | ErrorMitigation.

(** The monitor state read by [_analyze_patterns]. *)
Record monitor := mkMonitor {
  memory_history : history;
  cpu_history : history;
  disk_history : history;
  error_history : list (Q * string)
}.

(** [_analyze_patterns]: the actions it schedules, in order. *)
Definition analyze_patterns (m : monitor) (current_time : Q) : list action :=
  let memory_trend := calculate_trend (memory_history m) 3600 current_time in
  let recent_cpu := get_recent_values (cpu_history m) 300 current_time in
  let disk_trend := calculate_trend (disk_history m) 86400 current_time in
  let recent_errors :=
    filter (fun p => bool_decide (current_time - 3600 < fst p)) (error_history m) in
  (if bool_decide (memory_growth_threshold < memory_trend) then [MemoryCleanup] else [])
  ++ (if bool_decide (recent_cpu <> [])
         && bool_decide (cpu_sustained_threshold < mean recent_cpu)
      then [CpuOptimization] else [])
  ++ (if bool_decide (disk_growth_threshold < disk_trend) then [DiskCleanup] else [])
  ++ (if bool_decide (error_frequency_threshold < length recent_errors)%nat
      then [ErrorMitigation] else []).

(** [record_error]. *)
Definition record_error (current_time : Q) (error_type : string) (m : monitor)
  : monitor :=
  mkMonitor (memory_history m) (cpu_history m) (disk_history m)
    (error_history m ++ [(current_time, error_type)]).




(** The cooldown bookkeeping of the [_schedule_*] actions. *)
Record maintenance := mkMaintenance {
  last_cleanup_time : Q;
  last_restart_time : Q
}.

Definition cleanup_cooldown : Q := 3600.
Definition restart_cooldown : Q := 7200.

(** [_schedule_memory_cleanup] and [_schedule_disk_cleanup] (both guard
    on and set [_last_cleanup_time]); [true] when the cleanup ran. *)
Definition schedule_cleanup (current_time : Q) (s : maintenance)
  : maintenance * bool :=
  if bool_decide (current_time - last_cleanup_time s < cleanup_cooldown)
  then (s, false)
  else (mkMaintenance current_time (last_restart_time s), true).

(** [_schedule_error_mitigation]. *)
Definition schedule_error_mitigation (current_time : Q) (s : maintenance)
  : maintenance * bool :=
  if bool_decide (current_time - last_restart_time s < restart_cooldown)
  then (s, false)
  else (mkMaintenance (last_cleanup_time s) current_time, true).

(** Running the actions [_analyze_patterns] scheduled, in order, each
    with its own [time.time()] reading; returns those that ran
    ([_schedule_cpu_optimization] has no cooldown). *)
Fixpoint perform_actions (acts : list (action * Q)) (s : maintenance)
  : maintenance * list action :=
  match acts with
  | [] => (s, [])
  | (a, t) :: acts' =>
      let '(s1, ran) :=
        match a with
        | MemoryCleanup | DiskCleanup => schedule_cleanup t s
        | CpuOptimization => (s, true)
        | ErrorMitigation => schedule_error_mitigation t s
        end in
      let '(s2, done_) := perform_actions acts' s1 in
      (s2, if ran then a :: done_ else done_)
  end.

(** The two actions guarded by [_last_cleanup_time]. *)
Definition is_cleanup (a : action) : bool :=
  match a with
  | MemoryCleanup | DiskCleanup => true
  | CpuOptimization | ErrorMitigation => false
  end.

(** [cleanup_cooldown_remaining] of [get_prediction_status]. *)
Definition cleanup_cooldown_remaining (current_time : Q) (s : maintenance) : Q :=
  let r := cleanup_cooldown - (current_time - last_cleanup_time s) in
  if bool_decide (0 < r) then r else 0.

(** [restart_cooldown_remaining] of [get_prediction_status]. *)
Definition restart_cooldown_remaining (current_time : Q) (s : maintenance) : Q :=
  let r := restart_cooldown - (current_time - last_restart_time s) in
  if bool_decide (0 < r) then r else 0.

End Predictive.

(* ===================================================================== *)
(** ** units/lm-studio-bridge/logic/recovery_manager.py : RecoveryManager *)
(* ===================================================================== *)

Module Recovery.

(** ASCII part of [str.lower()]. *)
Definition lower_ascii (a : Ascii.ascii) : Ascii.ascii :=
  let n := Ascii.nat_of_ascii a in
  if (65 <=? n)%nat && (n <=? 90)%nat then Ascii.ascii_of_nat (n + 32) else a.

Fixpoint lower (s : string) : string :=
  match s with
  | EmptyString => EmptyString
  | String a s' => String (lower_ascii a) (lower s')
  end.

(** Python's [needle in haystack] on strings. *)
Fixpoint contains (needle haystack : string) : bool :=
  String.prefix needle haystack ||
  match haystack with
  | EmptyString => false
  | String _ h' => contains needle h'
  end.

(** An exception: [str(error)] and whether it is a [NetworkError]. *)
Record error := mkError {
  err_str : string;
  is_network_error : bool
}.

(** [_identify_error_pattern]. *)
Definition identify_error_pattern (e : error) : string :=
  let error_str := lower (err_str e) in
  if contains "connection refused" error_str then "connection_refused"
  else if contains "timeout" error_str then "timeout"
  else if contains "service unavailable" error_str || contains "503" error_str
  then "service_unavailable"
  else if contains "circuit breaker" error_str then "circuit_breaker"
  else if is_network_error e then "network_error"
  else "generic".

(** The recovery manager with its [PredictiveMaintenance] instance
    (always present: [predictive_maintenance or PredictiveMaintenance()]). *)
Record manager := mkManager {
  recovery_attempts : Z;
  last_recovery_time : Z;
  predictive_maintenance : Predictive.monitor
}.

Definition max_recovery_attempts : Z := 5.
Definition recovery_cooldown : Z := 60.

(** [handle_error].  [loop_time] is [asyncio.get_event_loop().time()],
    [wall_time] the [time.time()] read by [record_error], and [strategy]
    the outcome of the awaited recovery strategy for a pattern
    ([None] when it raises). *)
Definition handle_error (loop_time : Z) (wall_time : Q)
    (strategy : string -> option bool) (e : error) (context : string)
    (rm : manager) : manager * bool :=
  if bool_decide (loop_time - last_recovery_time rm < recovery_cooldown)
  then (rm, false)
  else if bool_decide (recovery_attempts rm >= max_recovery_attempts)
  then (rm, false)
  else
    let pm := Predictive.record_error wall_time (identify_error_pattern e)
                (predictive_maintenance rm) in
    let error_pattern := identify_error_pattern e in
    let rm' := mkManager (recovery_attempts rm + 1) loop_time pm in
    match strategy error_pattern with
    | Some true => (mkManager 0 loop_time pm, true)
    | Some false => (rm', false)
    | None => (rm', false)
    end.

(** [get_recovery_status]: [recovery_cooldown_active] and
    [recovery_available]. *)
Definition recovery_status (loop_time : Z) (rm : manager) : bool * bool :=
  (bool_decide (loop_time - last_recovery_time rm < recovery_cooldown),
   bool_decide (recovery_attempts rm < max_recovery_attempts)).

(** Successive [handle_error] calls, each with its clock readings,
    strategy outcome, error and context; returns the results. *)
Fixpoint handle_errors
    (calls : list (Z * Q * (string -> option bool) * error * string)) (rm : manager)
  : manager * list bool :=
  match calls with
  | [] => (rm, [])
  | (loop_time, wall_time, strategy, e, context) :: calls' =>
      let '(rm1, ok) := handle_error loop_time wall_time strategy e context rm in
      let '(rm2, oks) := handle_errors calls' rm1 in
      (rm2, ok :: oks)
  end.

(** [reset_recovery_state]. *)
Definition reset_recovery_state (rm : manager) : manager :=
  mkManager 0 0 (predictive_maintenance rm).

End Recovery.

(* ===================================================================== *)
(** * Proofs *)
(* ===================================================================== *)

Module HttpClientProofs.
Import HttpClient.

Lemma record_failure_failures t c :
  circuit_breaker_failures (record_failure t c) = circuit_breaker_failures c + 1.
Proof. reflexivity. Qed.

Lemma record_failures_open (ts : list Z) (c : client) :
  ts <> [] ->
  circuit_breaker_failures c + Z.of_nat (length ts) >= circuit_breaker_threshold ->
  is_circuit_open (record_failures ts c) = true.
Proof.
  revert c. induction ts as [|t ts IH]; intros c Hne Hge; [congruence|].
  destruct ts as [|t' ts'].
  - simpl in *. unfold record_failure; simpl.
    rewrite bool_decide_eq_true_2 by lia. reflexivity.
  - simpl. apply IH; [discriminate|].
    rewrite record_failure_failures. simpl in *. lia.
Qed.

(** While OPEN and within the cool-off, [_make_request] raises at once. *)
Lemma make_request_fail_fast (mr : nat) (now : Z) (e : env) (c : client) :
  is_circuit_open c = true ->
  now - circuit_breaker_last_failure c <= circuit_breaker_timeout ->
  make_request mr now e c = (c, ErrCircuitOpen, 0%nat).
Proof.
  intros Ho Ht. unfold make_request, check_circuit_breaker.
  rewrite Ho, (bool_decide_eq_false_2 (_ > _)) by lia. simpl.
  rewrite Ho. reflexivity.
Qed.

Lemma run_calls_fail_fast (calls : list (nat * Z * env)) (c : client) :
  is_circuit_open c = true ->
  Forall (fun call => call.1.2 - circuit_breaker_last_failure c
                      <= circuit_breaker_timeout) calls ->
  run_calls calls c = (c, map (fun _ => (ErrCircuitOpen, 0%nat)) calls).
Proof.
  intros Ho. induction calls as [|[[mr now] e] calls IH]; intros Hall; [done|].
  inversion Hall as [|? ? Hnow Hrest]; subst; simpl in Hnow.
  simpl. rewrite make_request_fail_fast by done.
  rewrite IH by done. reflexivity.
Qed.

(** What one run of the retry loop does to the breaker. *)
Lemma attempts_spec (e : env) (fuel k : nat) (c : client) :
  let '(c', r, n) := attempts e fuel k c in
  (n <= fuel)%nat /\ (0 < fuel -> 0 < n)%nat /\ r <> ErrCircuitOpen /\
  (r = ReqOk -> circuit_breaker_failures c' = 0 /\ is_circuit_open c' = false) /\
  (r <> ReqOk ->
     circuit_breaker_failures c' = circuit_breaker_failures c + Z.of_nat n /\
     (is_circuit_open c' = true <->
        is_circuit_open c = true \/
        ((0 < n)%nat /\ circuit_breaker_failures c + Z.of_nat n >= circuit_breaker_threshold))).
Proof.
  revert k c. induction fuel as [|fuel IH]; intros k c.
  - simpl. split; [lia|]. split; [lia|]. split; [congruence|].
    split; [congruence|]. intros _. split; [lia|].
    split; [intros H; left; exact H | intros [H | [H _]]; [exact H | lia]].
  - simpl. destruct (e k) as [t o].
    assert (Hcont :
      let '(c', r, n) :=
        (let '(c', r, n) := attempts e fuel (S k) (record_failure t c) in (c', r, S n)) in
      (n <= S fuel)%nat /\ (0 < S fuel -> 0 < n)%nat /\ r <> ErrCircuitOpen /\
      (r = ReqOk -> circuit_breaker_failures c' = 0 /\ is_circuit_open c' = false) /\
      (r <> ReqOk ->
         circuit_breaker_failures c' = circuit_breaker_failures c + Z.of_nat n /\
         (is_circuit_open c' = true <->
            is_circuit_open c = true \/
            ((0 < n)%nat /\ circuit_breaker_failures c + Z.of_nat n >= circuit_breaker_threshold)))).
    { specialize (IH (S k) (record_failure t c)).
      destruct (attempts e fuel (S k) (record_failure t c)) as [[c' r] n].
      destruct IH as (Hn & _ & Hr & Hok & Hfail).
      split; [lia|]. split; [lia|]. split; [exact Hr|]. split; [exact Hok|].
      intros Hne. destruct (Hfail Hne) as [Hf Hiff].
      split; [rewrite Hf, record_failure_failures; lia|].
      unfold record_failure in Hiff; simpl in Hiff.
      unfold circuit_breaker_threshold in *.
      rewrite Hiff. case_bool_decide.
      + split; [intros _; right; split; lia | intros _; left; done].
      + split.
        * intros [Ho | [_ Ho]]; [left; done | right; split; lia].
        * intros [Ho | [_ Ho]]; [left; done | right; split; lia]. }
    destruct o as [code| |]; [|exact Hcont|exact Hcont].
    destruct (is_success_code code).
    { split; [lia|]. split; [lia|]. split; [congruence|].
      split; [done|]. intros H; congruence. }
    destruct (is_terminal_client_error code); [|exact Hcont].
    split; [lia|]. split; [lia|]. split; [congruence|]. split; [congruence|].
    intros _. split; [simpl; lia|]. simpl.
    unfold circuit_breaker_threshold. case_bool_decide.
    + split; [intros _; right; split; lia | intros _; done].
    + split; [intros Ho; left; done|].
      intros [Ho | [_ Ho]]; [done | lia].
Qed.

Lemma attempts_first_success (e : env) (fuel k : nat) (c : client) (t code : Z) :
  e k = (t, Response code) -> is_success_code code = true ->
  attempts e (S fuel) k c = (record_success t c, ReqOk, 1%nat).
Proof. intros He Hs. simpl. rewrite He, Hs. reflexivity. Qed.

(** How the retry loop ends: every attempt before the last issued one
    got no 2xx response; the loop returns a body exactly when the last
    issued attempt got a 2xx response, and otherwise the last failure is
    stamped with the clock reading of that attempt. *)
Lemma attempts_outcome (e : env) (fuel k : nat) (c : client) :
  let '(c', r, n) := attempts e fuel k c in
  (0 < n)%nat ->
  (forall j t code, (k <= j < k + pred n)%nat -> e j = (t, Response code) ->
     is_success_code code = false) /\
  (r = ReqOk <-> exists t code, e (k + pred n)%nat = (t, Response code) /\
                                is_success_code code = true) /\
  (r <> ReqOk -> circuit_breaker_last_failure c' = (e (k + pred n)%nat).1).
Proof.
  revert k c. induction fuel as [|f IH]; intros k c; [simpl; lia|].
  simpl. destruct (e k) as [t o] eqn:Ek.
  assert (Hcont : (forall code, o = Response code -> is_success_code code = false) ->
    let '(c', r, n) :=
      (let '(c', r, n) := attempts e f (S k) (record_failure t c) in (c', r, S n)) in
    (0 < n)%nat ->
    (forall j t code, (k <= j < k + pred n)%nat -> e j = (t, Response code) ->
       is_success_code code = false) /\
    (r = ReqOk <-> exists t code, e (k + pred n)%nat = (t, Response code) /\
                                  is_success_code code = true) /\
    (r <> ReqOk -> circuit_breaker_last_failure c' = (e (k + pred n)%nat).1)).
  { intros Hns. specialize (IH (S k) (record_failure t c)).
    pose proof (attempts_spec e f (S k) (record_failure t c)) as Hsp.
    destruct (attempts e f (S k) (record_failure t c)) as [[c' r] n'] eqn:Ea.
    intros _. destruct n' as [|m].
    - destruct f as [|f']; [|destruct Hsp as (_ & Hp & _); lia].
      simpl in Ea. injection Ea as <- <-.
      cbn [pred]. rewrite Nat.add_0_r, Ek.
      split; [intros; lia|]. split.
      + split; [discriminate|]. intros (t' & code & Heq & Hs).
        injection Heq as <- ->. rewrite (Hns code eq_refl) in Hs. discriminate.
      + intros _. reflexivity.
    - destruct (IH ltac:(lia)) as (H1 & H2 & H3). cbn [pred] in *.
      replace (k + S m)%nat with (S k + m)%nat by lia.
      split; [|split; assumption].
      intros j t' code Hj Hej. destruct (decide (j = k)) as [->|Hne].
      + rewrite Ek in Hej. injection Hej as <- ->. exact (Hns code eq_refl).
      + apply (H1 j t' code); [lia | exact Hej]. }
  destruct o as [code| |].
  - destruct (is_success_code code) eqn:Hs.
    + intros _. cbn [pred]. rewrite Nat.add_0_r, Ek.
      split; [intros; lia|]. split.
      * split; [intros _; exists t, code; split; [reflexivity | exact Hs] | intros _; reflexivity].
      * intros H; congruence.
    + destruct (is_terminal_client_error code).
      * intros _. cbn [pred]. rewrite Nat.add_0_r, Ek.
        split; [intros; lia|]. split.
        -- split; [discriminate|]. intros (t' & code' & Heq & Hs').
           injection Heq as <- ->. congruence.
        -- intros _. reflexivity.
      * apply Hcont. intros code' [= <-]. exact Hs.
  - apply Hcont. discriminate.
  - apply Hcont. discriminate.
Qed.

(** After the cool-off, [_check_circuit_breaker] closes the breaker and
    zeroes the counter. *)
Definition cooled_off (c : client) : client :=
  mkClient 0 (circuit_breaker_last_failure c) false
    (connection_healthy c) (last_successful_request c).

Lemma make_request_after_cool_off (mr : nat) (now : Z) (e : env) (c : client) :
  is_circuit_open c = true ->
  now - circuit_breaker_last_failure c > circuit_breaker_timeout ->
  make_request mr now e c = attempts e (S mr) O (cooled_off c).
Proof.
  intros Ho Ht. unfold make_request, check_circuit_breaker.
  rewrite Ho, bool_decide_eq_true_2 by exact Ht. reflexivity.
Qed.

(** ** C1 *)

(** C1: after at least [breaker_threshold] (5) consecutive recorded
    failures the circuit is OPEN, and every later call made before the
    cool-off (60 s after the last failure) has elapsed fails fast with
    [CircuitOpen], issues no HTTP attempt and leaves the breaker as it
    is. *)
Theorem breaker_opens_and_fails_fast (c : client) (ts : list Z)
    (calls : list (nat * Z * env)) :
  0 <= circuit_breaker_failures c ->
  (5 <= length ts)%nat ->
  Forall (fun call => call.1.2 - circuit_breaker_last_failure (record_failures ts c)
                      <= circuit_breaker_timeout) calls ->
  is_circuit_open (record_failures ts c) = true /\
  run_calls calls (record_failures ts c)
  = (record_failures ts c, map (fun _ => (ErrCircuitOpen, 0%nat)) calls).
Proof.
  intros Hf Hlen Hcalls.
  assert (Ho : is_circuit_open (record_failures ts c) = true).
  { apply record_failures_open.
    - destruct ts; simpl in *; [lia | discriminate].
    - unfold circuit_breaker_threshold. lia. }
  split; [exact Ho|]. apply run_calls_fail_fast; assumption.
Qed.

Lemma breaker_opens_and_fails_fast_witness :
  let c := init_client 0 in
  let ts := [1; 2; 3; 4; 5] in
  let calls : list (nat * Z * env) := [(3%nat, 30, fun _ => (31, Response 200))] in
  (0 <= circuit_breaker_failures c /\ (5 <= length ts)%nat /\
   Forall (fun call => call.1.2 - circuit_breaker_last_failure (record_failures ts c)
                       <= circuit_breaker_timeout) calls) /\
  is_circuit_open (record_failures ts c) = true /\
  run_calls calls (record_failures ts c)
  = (record_failures ts c, map (fun _ => (ErrCircuitOpen, 0%nat)) calls).
Proof.
  intros c ts calls.
  assert (H1 : 0 <= circuit_breaker_failures c) by (simpl; lia).
  assert (H2 : (5 <= length ts)%nat) by (simpl; lia).
  assert (H3 : Forall (fun call => call.1.2 - circuit_breaker_last_failure (record_failures ts c)
                       <= circuit_breaker_timeout) calls).
  { repeat constructor; vm_compute; discriminate. }
  split; [split; [exact H1 | split; [exact H2 | exact H3]]|].
  exact (breaker_opens_and_fails_fast c ts calls H1 H2 H3).
Defined.

(** ** C2 *)

(** C2 (counterexample): an OPEN breaker whose cool-off has elapsed
    (failures 5, last failure at 100, call at 161) whose call meets only
    transport errors makes 4 HTTP attempts, not one, and ends CLOSED with
    4 failures instead of reopening. *)
Lemma breaker_cool_off_counterexample :
  let c := mkClient 5 100 true false 0 in
  let e : env := fun k => (200 + Z.of_nat k, RequestErr) in
  is_circuit_open c = true /\
  161 - circuit_breaker_last_failure c > circuit_breaker_timeout /\
  let '(c', r, n) := make_request default_max_retries 161 e c in
  n = 4%nat /\ r = ErrRetriesExhausted /\
  is_circuit_open c' = false /\ circuit_breaker_failures c' = 4.
Proof.
  intros c e. split; [reflexivity|]. split; [vm_compute; reflexivity|].
  vm_compute. repeat split.
Qed.

(** C2 (amended): when the circuit is OPEN and the cool-off has elapsed,
    the next call closes the breaker and resets the counter to 0 before
    its first attempt, then runs the ordinary retry loop (1 to
    max_retries+1 attempts).  A success leaves the breaker closed with
    counter 0 (after a single attempt when the first attempt succeeds);
    otherwise the counter equals the number of failed attempts, the last
    failure time is the fresh clock reading of the last failed attempt,
    and the breaker is open again only if that number reached 5, so with the
    default max_retries = 3 the call ends with the breaker closed. *)
Theorem breaker_cool_off_resets_counter (c : client) (mr : nat) (now : Z) (e : env) :
  is_circuit_open c = true ->
  now - circuit_breaker_last_failure c > circuit_breaker_timeout ->
  let '(c', r, n) := make_request mr now e c in
  (1 <= n <= S mr)%nat /\
  (r = ReqOk -> circuit_breaker_failures c' = 0 /\ is_circuit_open c' = false) /\
  (r <> ReqOk -> circuit_breaker_failures c' = Z.of_nat n /\
                 (is_circuit_open c' = true <-> (5 <= n)%nat) /\
                 circuit_breaker_last_failure c' = (e (pred n)).1) /\
  ((mr <= default_max_retries)%nat -> is_circuit_open c' = false) /\
  (forall t code, e O = (t, Response code) -> is_success_code code = true ->
     n = 1%nat /\ r = ReqOk /\ circuit_breaker_failures c' = 0 /\
     is_circuit_open c' = false).
Proof.
  intros Ho Ht. rewrite make_request_after_cool_off by assumption.
  pose proof (attempts_first_success e mr O (cooled_off c)) as Hfirst.
  pose proof (attempts_spec e (S mr) O (cooled_off c)) as Hspec.
  pose proof (attempts_outcome e (S mr) O (cooled_off c)) as Hout.
  destruct (attempts e (S mr) O (cooled_off c)) as [[c' r] n].
  destruct Hspec as (Hn & Hpos & _ & Hok & Hfail).
  simpl in Hfail.
  assert (Hfail' : r <> ReqOk -> circuit_breaker_failures c' = Z.of_nat n /\
                   (is_circuit_open c' = true <-> (5 <= n)%nat) /\
                   circuit_breaker_last_failure c' = (e (pred n)).1).
  { intros Hne. destruct (Hfail Hne) as [Hf Hiff]. split; [lia|].
    split; [|destruct (Hout ltac:(lia)) as (_ & _ & Hl); exact (Hl Hne)].
    rewrite Hiff. unfold circuit_breaker_threshold.
    split; [intros [H | [_ H]]; [discriminate | lia] | intros H; right; split; lia]. }
  split; [lia|]. split; [exact Hok|]. split; [exact Hfail'|]. split.
  - intros Hmr. destruct r.
    + apply Hok; reflexivity.
    + destruct (Hfail' ltac:(discriminate)) as (_ & Hiff & _).
      destruct (is_circuit_open c'); [|reflexivity]. exfalso.
      assert (5 <= n)%nat by (apply Hiff; reflexivity).
      unfold default_max_retries in Hmr. lia.
    + destruct (Hfail' ltac:(discriminate)) as (_ & Hiff & _).
      destruct (is_circuit_open c'); [|reflexivity]. exfalso.
      assert (5 <= n)%nat by (apply Hiff; reflexivity).
      unfold default_max_retries in Hmr. lia.
  - intros t code He Hs. specialize (Hfirst t code He Hs).
    injection Hfirst as -> -> ->. repeat split.
Qed.

Lemma breaker_cool_off_resets_counter_witness :
  let c := mkClient 5 100 true false 0 in
  let e : env := fun k => (200 + Z.of_nat k, Response 200) in
  (is_circuit_open c = true /\ 161 - circuit_breaker_last_failure c > circuit_breaker_timeout) /\
  let '(c', r, n) := make_request default_max_retries 161 e c in
  (1 <= n <= S default_max_retries)%nat /\
  (r = ReqOk -> circuit_breaker_failures c' = 0 /\ is_circuit_open c' = false) /\
  (r <> ReqOk -> circuit_breaker_failures c' = Z.of_nat n /\
                 (is_circuit_open c' = true <-> (5 <= n)%nat) /\
                 circuit_breaker_last_failure c' = (e (pred n)).1) /\
  ((default_max_retries <= default_max_retries)%nat -> is_circuit_open c' = false) /\
  (forall t code, e O = (t, Response code) -> is_success_code code = true ->
     n = 1%nat /\ r = ReqOk /\ circuit_breaker_failures c' = 0 /\
     is_circuit_open c' = false).
Proof.
  intros c e.
  assert (H1 : is_circuit_open c = true) by reflexivity.
  assert (H2 : 161 - circuit_breaker_last_failure c > circuit_breaker_timeout)
    by (vm_compute; reflexivity).
  split; [split; assumption|].
  exact (breaker_cool_off_resets_counter c default_max_retries 161 e H1 H2).
Defined.

(** ** C9 *)

(** C9: within one call, a 4xx response other than 429 ends the retry
    loop at once, with the failure recorded against the breaker and no
    further attempt; a timeout, a transport error, a 5xx or a 429 records
    a failure and goes on with the next attempt of the remaining budget;
    a fail-fast [CircuitOpen] rejection leaves the breaker (and its failure
    counter) unchanged and issues no attempt. *)
Theorem request_retry_policy (e : env) (fuel k : nat) (c : client) (t : Z)
    (o : attempt_outcome) :
  e k = (t, o) ->
  ((exists code, o = Response code /\ 400 <= code < 500 /\ code <> 429) ->
     attempts e (S fuel) k c = (record_failure t c, ErrRetriesExhausted, 1%nat)) /\
  ((o = TimeoutExc \/ o = RequestErr \/
    exists code, o = Response code /\ (500 <= code < 600 \/ code = 429)) ->
     attempts e (S fuel) k c
     = (let '(c', r, n) := attempts e fuel (S k) (record_failure t c) in (c', r, S n))) /\
  (forall mr now c' n, make_request mr now e c = (c', ErrCircuitOpen, n) ->
     c' = c /\ n = 0%nat).
Proof.
  intros He. split; [|split].
  - intros (code & -> & Hr & Hne). simpl. rewrite He.
    unfold is_success_code, is_terminal_client_error.
    rewrite (bool_decide_eq_false_2 (200 <= code < 300)) by lia.
    rewrite (bool_decide_eq_true_2 (400 <= code < 500)) by lia.
    rewrite (bool_decide_eq_false_2 (code = 429)) by lia. reflexivity.
  - intros Ho. simpl. rewrite He.
    destruct Ho as [-> | [-> | (code & -> & Hr)]]; try reflexivity.
    unfold is_success_code, is_terminal_client_error.
    rewrite (bool_decide_eq_false_2 (200 <= code < 300)) by lia.
    destruct Hr as [Hr | ->].
    + rewrite (bool_decide_eq_false_2 (400 <= code < 500)) by lia. reflexivity.
    + reflexivity.
  - intros mr now c' n. unfold make_request.
    destruct (check_circuit_breaker now c) as [c1 allowed] eqn:Hchk.
    destruct allowed; cbn [negb].
    + pose proof (attempts_spec e (S mr) O c1) as Hs.
      destruct (attempts e (S mr) O c1) as [[c2 r] m].
      destruct Hs as (_ & _ & Hr & _). intros Heq. injection Heq as _ -> _.
      congruence.
    + intros Heq. injection Heq as <- <-. split; [|reflexivity].
      unfold check_circuit_breaker in Hchk.
      destruct (is_circuit_open c && _); injection Hchk as <- Hal; done.
Qed.

Lemma request_retry_policy_witness :
  let e : env := fun _ => (7, Response 404) in
  e O = (7, Response 404) /\
  ((exists code, Response 404 = Response code /\ 400 <= code < 500 /\ code <> 429) ->
     attempts e 4 O (init_client 0)
     = (record_failure 7 (init_client 0), ErrRetriesExhausted, 1%nat)) /\
  ((Response 404 = TimeoutExc \/ Response 404 = RequestErr \/
    exists code, Response 404 = Response code /\ (500 <= code < 600 \/ code = 429)) ->
     attempts e 4 O (init_client 0)
     = (let '(c', r, n) := attempts e 3 1 (record_failure 7 (init_client 0)) in
        (c', r, S n))) /\
  (forall mr now c' n, make_request mr now e (init_client 0) = (c', ErrCircuitOpen, n) ->
     c' = init_client 0 /\ n = 0%nat).
Proof.
  intros e. assert (He : e O = (7, Response 404)) by reflexivity.
  split; [exact He|].
  exact (request_retry_policy e 3 O (init_client 0) 7 (Response 404) He).
Defined.

(** ** Further properties of the client *)

Lemma check_circuit_breaker_inv (t : Z) (c : client) :
  0 <= circuit_breaker_failures c ->
  (is_circuit_open c = true -> circuit_breaker_failures c >= circuit_breaker_threshold) ->
  let c' := (check_circuit_breaker t c).1 in
  0 <= circuit_breaker_failures c' /\
  (is_circuit_open c' = true -> circuit_breaker_failures c' >= circuit_breaker_threshold).
Proof.
  intros H0 H1. unfold check_circuit_breaker. simpl.
  destruct (is_circuit_open c && _); simpl; [split; [lia | discriminate] | auto].
Qed.

Lemma attempts_inv (e : env) (fuel k : nat) (c : client) :
  0 <= circuit_breaker_failures c ->
  (is_circuit_open c = true -> circuit_breaker_failures c >= circuit_breaker_threshold) ->
  let c' := (attempts e fuel k c).1.1 in
  0 <= circuit_breaker_failures c' /\
  (is_circuit_open c' = true -> circuit_breaker_failures c' >= circuit_breaker_threshold).
Proof.
  intros H0 H1. pose proof (attempts_spec e fuel k c) as Hs.
  destruct (attempts e fuel k c) as [[c' r] n]. simpl.
  destruct Hs as (_ & _ & _ & Hok & Hfail).
  destruct r.
  - destruct (Hok eq_refl) as [-> ->]. split; [lia | discriminate].
  - destruct (Hfail ltac:(discriminate)) as [Hf Ho]. rewrite Hf.
    split; [lia|]. intros Hc. apply Ho in Hc. destruct Hc as [Hc | [_ Hc]]; [|exact Hc].
    specialize (H1 Hc). lia.
  - destruct (Hfail ltac:(discriminate)) as [Hf Ho]. rewrite Hf.
    split; [lia|]. intros Hc. apply Ho in Hc. destruct Hc as [Hc | [_ Hc]]; [|exact Hc].
    specialize (H1 Hc). lia.
Qed.

Lemma make_request_inv (mr : nat) (now : Z) (e : env) (c : client) :
  0 <= circuit_breaker_failures c ->
  (is_circuit_open c = true -> circuit_breaker_failures c >= circuit_breaker_threshold) ->
  let c' := (make_request mr now e c).1.1 in
  0 <= circuit_breaker_failures c' /\
  (is_circuit_open c' = true -> circuit_breaker_failures c' >= circuit_breaker_threshold).
Proof.
  intros H0 H1. unfold make_request.
  pose proof (check_circuit_breaker_inv now c H0 H1) as Hc.
  destruct (check_circuit_breaker now c) as [c1 allowed]. simpl in Hc.
  destruct Hc as [Hc0 Hc1].
  destruct allowed; simpl; [exact (attempts_inv e (S mr) O c1 Hc0 Hc1) | auto].
Qed.

Lemma run_op_inv (op : client_op) (c : client) :
  0 <= circuit_breaker_failures c ->
  (is_circuit_open c = true -> circuit_breaker_failures c >= circuit_breaker_threshold) ->
  let c' := run_op op c in
  0 <= circuit_breaker_failures c' /\
  (is_circuit_open c' = true -> circuit_breaker_failures c' >= circuit_breaker_threshold).
Proof.
  intros H0 H1. destruct op as [mr now e | ok mr now e]; simpl.
  - exact (make_request_inv mr now e c H0 H1).
  - unfold attempt_recovery. destruct ok.
    + unfold health_check.
      pose proof (make_request_inv mr now e
        (mkClient 0 (circuit_breaker_last_failure c) false (connection_healthy c)
           (last_successful_request c)) ltac:(simpl; lia) ltac:(discriminate)) as Hm.
      destruct (make_request _ _ _ _) as [[c' r] n]. exact Hm.
    + simpl. split; [lia | discriminate].
Qed.

(** X1: [attempt_recovery] resets the breaker before anything else, so
    it issues between 1 and max_retries+1 HTTP attempts whatever the
    breaker state was (even OPEN within the cool-off); it returns [True]
    exactly when one of the attempts it issued got a 2xx response, and
    then the breaker is closed with counter 0; otherwise the counter equals the number of failed attempts and the
    breaker is OPEN exactly when that number is at least 5.  When closing
    and recreating the HTTP client raises, it returns [False] with no
    attempt and the breaker closed at 0. *)
Theorem attempt_recovery_spec (close_ok : bool) (mr : nat) (now : Z) (e : env) (c : client) :
  let '(c', ok, n) := attempt_recovery close_ok mr now e c in
  (close_ok = false ->
     ok = false /\ n = O /\ circuit_breaker_failures c' = 0 /\ is_circuit_open c' = false) /\
  (close_ok = true ->
     (1 <= n <= S mr)%nat /\
     (ok = true <-> exists j t code, (j < n)%nat /\ e j = (t, Response code) /\
                                    is_success_code code = true) /\
     (ok = true -> circuit_breaker_failures c' = 0 /\ is_circuit_open c' = false) /\
     (ok = false -> circuit_breaker_failures c' = Z.of_nat n /\
                    (is_circuit_open c' = true <-> (5 <= n)%nat))).
Proof.
  destruct close_ok.
  - unfold attempt_recovery, health_check, make_request, check_circuit_breaker.
    cbn -[attempts].
    pose proof (attempts_spec e (S mr) O
      (mkClient 0 (circuit_breaker_last_failure c) false (connection_healthy c)
         (last_successful_request c))) as Hs.
    pose proof (attempts_outcome e (S mr) O
      (mkClient 0 (circuit_breaker_last_failure c) false (connection_healthy c)
         (last_successful_request c))) as Hout.
    destruct (attempts e (S mr) O _) as [[c' r] n].
    destruct Hs as (Hn & Hpos & Hnc & Hok & Hfail).
    destruct (Hout ltac:(lia)) as (Hbefore & Hlast & _). cbn [Nat.add] in Hbefore, Hlast.
    split; [discriminate|]. intros _.
    split; [lia|].
    split.
    { assert (Hr : (match r with ReqOk => true | _ => false end) = true <-> r = ReqOk)
        by (destruct r; split; congruence).
      rewrite Hr, Hlast. split.
      - intros (t & code & He & Hsc). exists (pred n), t, code.
        split; [lia | split; assumption].
      - intros (j & t & code & Hj & He & Hsc).
        destruct (decide (j = pred n)) as [->|Hne]; [exists t, code; split; assumption|].
        exfalso. rewrite (Hbefore j t code ltac:(lia) He) in Hsc. discriminate. }
    destruct r; [| congruence |].
    + split; [intros _; apply Hok; reflexivity | discriminate].
    + split; [discriminate|]. intros _.
      destruct (Hfail ltac:(discriminate)) as [Hf Ho]. simpl in Hf, Ho.
      split; [lia|]. rewrite Ho. unfold circuit_breaker_threshold.
      split; [intros [H | [_ H]]; [discriminate | lia] | intros H; right; split; lia].
  - simpl. split; [intros _; repeat split | discriminate].
Qed.

Lemma attempt_recovery_spec_witness :
  attempt_recovery true 3 200 (fun _ => (200, RequestErr))
    (mkClient 7 190 true false 0) = (mkClient 4 200 false false 0, false, 4%nat) /\
  (1 <= 4 <= 4)%nat.
Proof.
  pose proof (attempt_recovery_spec true 3 200 (fun _ => (200, RequestErr))
    (mkClient 7 190 true false 0)) as H.
  destruct (attempt_recovery true 3 200 _ _) as [[c' ok] n] eqn:E.
  destruct H as [_ H]. destruct (H eq_refl) as [Hn _].
  assert (E' := E). vm_compute in E'. injection E' as <- <- <-.
  split; [reflexivity | exact Hn].
Defined.

(** X2: in every state the client reaches from [__init__] through any
    sequence of [_make_request] calls and [attempt_recovery] calls (with
    any clock readings and network outcomes), the failure counter is
    non-negative and an OPEN breaker has a counter of at least the
    threshold 5. *)
Theorem breaker_state_invariant (ops : list client_op) (now : Z) :
  let c := run_ops ops (init_client now) in
  0 <= circuit_breaker_failures c /\
  (is_circuit_open c = true -> circuit_breaker_failures c >= circuit_breaker_threshold).
Proof.
  unfold run_ops. simpl.
  assert (Hgen : forall c,
    0 <= circuit_breaker_failures c ->
    (is_circuit_open c = true -> circuit_breaker_failures c >= circuit_breaker_threshold) ->
    let c' := fold_left (fun c op => run_op op c) ops c in
    0 <= circuit_breaker_failures c' /\
    (is_circuit_open c' = true -> circuit_breaker_failures c' >= circuit_breaker_threshold)).
  { induction ops as [|op ops IH]; intros c H0 H1; [split; assumption|].
    simpl. destruct (run_op_inv op c H0 H1) as [H0' H1']. exact (IH _ H0' H1'). }
  apply Hgen; [simpl; lia | discriminate].
Qed.

Lemma breaker_state_invariant_witness :
  let c := run_ops [OpRequest 3 0 (fun _ => (0, RequestErr));
                    OpRequest 3 1 (fun _ => (1, TimeoutExc))] (init_client 0) in
  is_circuit_open c = true /\ circuit_breaker_failures c >= circuit_breaker_threshold.
Proof.
  intros c.
  destruct (breaker_state_invariant [OpRequest 3 0 (fun _ => (0, RequestErr));
                    OpRequest 3 1 (fun _ => (1, TimeoutExc))] 0) as [_ H].
  assert (Ho : is_circuit_open c = true) by reflexivity.
  split; [exact Ho | exact (H Ho)].
Defined.

(** X3: one [_make_request] call issues at most max_retries+1 HTTP
    attempts; it issues none exactly when it is rejected with the
    circuit-open error; when it returns a body the breaker is closed with
    counter 0. *)
Theorem make_request_attempt_bound (mr : nat) (now : Z) (e : env) (c : client) :
  let '(c', r, n) := make_request mr now e c in
  (n <= S mr)%nat /\ (r = ErrCircuitOpen <-> n = O) /\
  (r = ReqOk -> circuit_breaker_failures c' = 0 /\ is_circuit_open c' = false).
Proof.
  unfold make_request.
  destruct (check_circuit_breaker now c) as [c1 allowed].
  destruct allowed; cbn [negb].
  - pose proof (attempts_spec e (S mr) O c1) as Hs.
    destruct (attempts e (S mr) O c1) as [[c' r] n].
    destruct Hs as (Hn & Hpos & Hnc & Hok & _).
    split; [lia|]. split; [split; [congruence | lia] | exact Hok].
  - split; [lia|]. split; [tauto | discriminate].
Qed.

Lemma make_request_attempt_bound_witness :
  make_request 3 0 (fun _ => (0, Response 200)) (init_client 0)
  = (mkClient 0 0 false true 0, ReqOk, 1%nat) /\
  circuit_breaker_failures (mkClient 0 0 false true 0) = 0 /\
  is_circuit_open (mkClient 0 0 false true 0) = false.
Proof.
  pose proof (make_request_attempt_bound 3 0 (fun _ => (0, Response 200)) (init_client 0)) as H.
  destruct (make_request 3 0 _ _) as [[c' r] n] eqn:E.
  assert (E' := E). vm_compute in E'. injection E' as <- <- <-.
  destruct H as (_ & _ & H). split; [reflexivity | exact (H eq_refl)].
Defined.

(** The retry loop when every attempt ends in a timeout or a transport
    error: it runs out of attempts after using all of them. *)
Lemma attempts_transport_failures (e : env) (fuel k : nat) (c : client) :
  (forall j, match snd (e j) with Response _ => False | _ => True end) ->
  (attempts e fuel k c).1.2 = ErrRetriesExhausted /\ (attempts e fuel k c).2 = fuel.
Proof.
  intros He. revert k c. induction fuel as [|fuel IH]; intros k c; [split; reflexivity|].
  simpl. specialize (He k). destruct (e k) as [t o]. simpl in He.
  destruct (IH (S k) (record_failure t c)) as [Hr Hn].
  destruct (attempts e fuel (S k) (record_failure t c)) as [[c' r] n]. simpl in Hr, Hn.
  destruct o; [contradiction | |]; simpl; split; congruence.
Qed.

End HttpClientProofs.

Module DiscoveryProofs.
Import Discovery.

Lemma process_models_spec (old : gset string) (l : list model_data)
    (cur : gset string) (ms : gmap string model_data)
    (cur' : gset string) (ms' : gmap string model_data) (evs : list event) :
  process_models old l cur ms = (cur', ms', evs) ->
  cur' = cur ∪ list_to_set (catalog_ids l) /\
  dom ms' = dom ms ∪ list_to_set (catalog_ids l) /\
  evs = map Added (filter (fun x => x ∉ old) (catalog_ids l)).
Proof.
  revert cur ms cur' ms' evs.
  induction l as [|d l IH]; intros cur ms cur' ms' evs Heq.
  - simpl in Heq. injection Heq as <- <- <-. simpl.
    split; [set_solver|]. split; [set_solver|]. reflexivity.
  - unfold catalog_ids; simpl in Heq |- *. fold (catalog_ids l).
    destruct (truthy_id (md_id d)) as [mid|] eqn:Hid.
    + simpl. case_bool_decide as Hin.
      * destruct (IH _ _ _ _ _ Heq) as (Hc & Hd & He).
        split; [rewrite Hc; set_solver|].
        split; [rewrite Hd, dom_insert_L; set_solver|].
        rewrite filter_cons_False by (intros Hn; exact (Hn Hin)). exact He.
      * destruct (process_models old l ({[mid]} ∪ cur) (<[mid:=d]> ms))
          as [[c2 m2] e2] eqn:Hrec.
        injection Heq as <- <- <-.
        destruct (IH _ _ _ _ _ Hrec) as (Hc & Hd & He).
        split; [rewrite Hc; set_solver|].
        split; [rewrite Hd, dom_insert_L; set_solver|].
        rewrite filter_cons_True by exact Hin. simpl. rewrite He. reflexivity.
    + exact (IH _ _ _ _ _ Heq).
Qed.

Lemma remove_models_spec (l : list string) (ms ms' : gmap string model_data)
    (evs : list event) :
  remove_models l ms = (ms', evs) ->
  dom ms' = dom ms ∖ list_to_set l /\ evs = map Removed l.
Proof.
  revert ms ms' evs. induction l as [|mid l IH]; intros ms ms' evs Heq.
  - simpl in Heq. injection Heq as <- <-. split; [set_solver | reflexivity].
  - simpl in Heq. destruct (remove_models l (delete mid ms)) as [m2 e2] eqn:Hrec.
    injection Heq as <- <-. destruct (IH _ _ _ Hrec) as [Hd He].
    split; [rewrite Hd, dom_delete_L; simpl; set_solver | simpl; rewrite He; reflexivity].
Qed.

Lemma discover_models_spec (catalog : list model_data) (st st' : discovery)
    (evs : list event) :
  discover_models catalog st = (st', evs) ->
  model_ids st' = list_to_set (catalog_ids catalog) /\
  dom (models st') = (dom (models st) ∪ list_to_set (catalog_ids catalog))
                       ∖ (model_ids st ∖ list_to_set (catalog_ids catalog)) /\
  evs = map Added (filter (fun x => x ∉ model_ids st) (catalog_ids catalog))
        ++ map Removed (elements (model_ids st ∖ list_to_set (catalog_ids catalog))).
Proof.
  unfold discover_models.
  destruct (process_models (model_ids st) catalog ∅ (models st)) as [[cur ms] added] eqn:Hp.
  destruct (process_models_spec _ _ _ _ _ _ _ Hp) as (Hc & Hd & He).
  rewrite (left_id_L ∅ union) in Hc. subst cur.
  destruct (remove_models (elements (model_ids st ∖ list_to_set (catalog_ids catalog))) ms)
    as [ms2 removed] eqn:Hr.
  destruct (remove_models_spec _ _ _ _ Hr) as [Hd2 He2].
  intros Heq. injection Heq as <- <-. simpl.
  split; [reflexivity|]. split.
  - rewrite Hd2, Hd, list_to_set_elements_L. reflexivity.
  - rewrite He, He2. reflexivity.
Qed.

(** Entries without a usable id leave the loop unchanged. *)
Lemma process_models_skip (old : gset string) (l1 l2 : list model_data)
    (d : model_data) (cur : gset string) (ms : gmap string model_data) :
  truthy_id (md_id d) = None ->
  process_models old (l1 ++ d :: l2) cur ms = process_models old (l1 ++ l2) cur ms.
Proof.
  intros Hd. revert cur ms. induction l1 as [|d' l1 IH]; intros cur ms.
  - simpl. rewrite Hd. reflexivity.
  - simpl. destruct (truthy_id (md_id d')) as [mid|]; [|apply IH].
    case_bool_decide; rewrite IH; reflexivity.
Qed.

Lemma union_diff_stale (X S : gset string) : (X ∪ S) ∖ (X ∖ S) = S.
Proof.
  apply set_eq. intros x.
  destruct (decide (x ∈ X)); destruct (decide (x ∈ S)); set_solver.
Qed.

Lemma discover_models_keeps_invariant (catalog : list model_data) (st st' : discovery)
    (evs : list event) :
  dom (models st) = model_ids st ->
  discover_models catalog st = (st', evs) ->
  dom (models st') = model_ids st'.
Proof.
  intros Hinv Heq. destruct (discover_models_spec _ _ _ _ Heq) as (Hi & Hd & _).
  rewrite Hd, Hi, Hinv. apply union_diff_stale.
Qed.

Lemma reachable_invariant (st : discovery) :
  reachable st -> dom (models st) = model_ids st.
Proof.
  induction 1 as [|st catalog st' evs _ IH Hc].
  - simpl. apply dom_empty_L.
  - simpl in Hc. injection Hc as Hc.
    exact (discover_models_keeps_invariant _ _ _ _ IH Hc).
Qed.

(** ** C3 *)

(** C3 (counterexample): from the registry {A,B}, a catalog listing B
    and C twice emits "added C" twice, and a catalog entry whose id is the
    empty string is not put in the registry. *)
Lemma discovery_snapshot_counterexample :
  let st := mkDiscovery
              (<["A" := mkModelData (Some "A") None]>
                 (<["B" := mkModelData (Some "B") None]> ∅))
              {[ "A"; "B" ]} in
  (discover_models [mkModelData (Some "B") None; mkModelData (Some "C") None;
                    mkModelData (Some "C") None] st).2
  = [Added "C"; Added "C"; Removed "A"] /\
  model_ids (discover_models [mkModelData (Some "") None] init_discovery).1 = ∅ /\
  ""%string ∉ model_ids (discover_models [mkModelData (Some "") None] init_discovery).1.
Proof.
  intros st. split; [vm_compute; reflexivity|].
  assert (H : model_ids (discover_models [mkModelData (Some "") None] init_discovery).1 = ∅)
    by (vm_compute; reflexivity).
  split; [exact H|]. rewrite H. set_solver.
Qed.

Lemma filter_added_map (x : string) (L : list string) :
  filter (fun ev => ev = Added x) (map Added L) = map Added (filter (fun y => y = x) L).
Proof.
  induction L as [|y L IH]; [reflexivity|]. simpl. rewrite !filter_cons.
  repeat case_decide; simpl; try congruence; rewrite IH; reflexivity.
Qed.

Lemma filter_added_removed (x : string) (L : list string) :
  filter (fun ev => ev = Added x) (map Removed L) = [].
Proof.
  induction L as [|y L IH]; [reflexivity|]. simpl. rewrite filter_cons.
  case_decide; [discriminate | exact IH].
Qed.

Lemma discover_models_added_count (catalog : list model_data) (st : discovery) (x : string) :
  x ∉ model_ids st ->
  length (filter (fun ev => ev = Added x) (discover_models catalog st).2)
  = length (filter (fun y => y = x) (catalog_ids catalog)).
Proof.
  intros Hx. destruct (discover_models catalog st) as [st' evs] eqn:E. simpl.
  destruct (discover_models_spec _ _ _ _ E) as (_ & _ & He). subst evs.
  rewrite filter_app, filter_added_map, filter_added_removed, app_nil_r, length_map.
  rewrite list_filter_filter_l; [reflexivity|]. intros y ->. exact Hx.
Qed.

(** C3 (amended): from a registry holding {A,B}, a catalog whose
    usable ids are B and C once each (in either order, with any number of
    entries without a usable id) makes the cycle emit exactly
    [added C; removed A] and end with {B,C}; in general the cycle sets
    [model_ids] to the set of non-empty "id" values of the catalog, and,
    when the registry was consistent, [models] to the same key set, with
    no stale entry kept; and an id not in the registry before the cycle
    gets one "added" event per catalog entry listing it, so a new id
    listed twice is announced twice. *)
Theorem discovery_snapshot_diff (A B C : string) (dA dB : model_data)
    (catalog : list model_data) :
  A <> B -> A <> C -> B <> C ->
  catalog_ids catalog ≡ₚ [B; C] ->
  let st := mkDiscovery (<[A := dA]> (<[B := dB]> ∅)) {[A; B]} in
  (discover_models catalog st).2 = [Added C; Removed A] /\
  model_ids (discover_models catalog st).1 = {[B; C]} /\
  dom (models (discover_models catalog st).1) = {[B; C]} /\
  (forall (catalog' : list model_data) (st0 : discovery),
     model_ids (discover_models catalog' st0).1 = list_to_set (catalog_ids catalog') /\
     (dom (models st0) = model_ids st0 ->
      dom (models (discover_models catalog' st0).1) = list_to_set (catalog_ids catalog')) /\
     (forall x, x ∉ model_ids st0 ->
      length (filter (fun ev => ev = Added x) (discover_models catalog' st0).2)
      = length (filter (fun y => y = x) (catalog_ids catalog')))).
Proof.
  intros HAB HAC HBC Hperm st.
  assert (Hgen : forall (catalog' : list model_data) (st0 : discovery),
     model_ids (discover_models catalog' st0).1 = list_to_set (catalog_ids catalog') /\
     (dom (models st0) = model_ids st0 ->
      dom (models (discover_models catalog' st0).1) = list_to_set (catalog_ids catalog')) /\
     (forall x, x ∉ model_ids st0 ->
      length (filter (fun ev => ev = Added x) (discover_models catalog' st0).2)
      = length (filter (fun y => y = x) (catalog_ids catalog')))).
  { intros catalog' st0. split; [|split].
    - destruct (discover_models catalog' st0) as [st1 evs1] eqn:E. simpl.
      destruct (discover_models_spec _ _ _ _ E) as (Hi & _ & _). exact Hi.
    - intros Hinv.
      destruct (discover_models catalog' st0) as [st1 evs1] eqn:E. simpl.
      destruct (discover_models_spec _ _ _ _ E) as (_ & Hd & _).
      rewrite Hd, Hinv. apply union_diff_stale.
    - intros x Hx. exact (discover_models_added_count catalog' st0 x Hx). }
  destruct (discover_models catalog st) as [st' evs] eqn:E. simpl.
  destruct (discover_models_spec _ _ _ _ E) as (Hi & Hd & He).
  assert (Hids : catalog_ids catalog = [B; C] \/ catalog_ids catalog = [C; B]).
  { apply Permutation_length_2_inv. symmetry. exact Hperm. }
  assert (Hset : (list_to_set (catalog_ids catalog) : gset string) = {[B; C]}).
  { destruct Hids as [-> | ->]; simpl; set_solver. }
  assert (Hrem : model_ids st ∖ list_to_set (catalog_ids catalog) = ({[A]} : gset string)).
  { rewrite Hset. simpl. set_solver. }
  assert (Hadd : filter (fun x => x ∉ model_ids st) (catalog_ids catalog) = [C]).
  { simpl. destruct Hids as [-> | ->].
    - rewrite filter_cons_False by set_solver.
      rewrite filter_cons_True by set_solver. reflexivity.
    - rewrite filter_cons_True by set_solver.
      rewrite filter_cons_False by set_solver. reflexivity. }
  split; [rewrite He, Hadd, Hrem, elements_singleton; reflexivity|].
  split; [rewrite Hi, Hset; reflexivity|].
  split; [|exact Hgen].
  rewrite Hd, Hset. simpl.
  rewrite !dom_insert_L, dom_empty_L. set_solver.
Qed.

Lemma discovery_snapshot_diff_witness :
  let dA := mkModelData (Some "A") None in
  let dB := mkModelData (Some "B") None in
  let dC := mkModelData (Some "C") None in
  let catalog := [dC; mkModelData None None; dB] in
  let st := mkDiscovery (<["A" := dA]> (<["B" := dB]> ∅)) {["A"; "B"]} in
  catalog_ids catalog ≡ₚ ["B"; "C"]%string /\
  (discover_models catalog st).2 = [Added "C"; Removed "A"] /\
  length (filter (fun ev => ev = Added "C") (discover_models [dB; dC; dC] st).2) = 2%nat.
Proof.
  intros dA dB dC catalog st.
  assert (Hp : catalog_ids catalog ≡ₚ ["B"; "C"]%string).
  { vm_compute. apply Permutation_swap. }
  destruct (discovery_snapshot_diff "A" "B" "C" dA dB catalog
              ltac:(discriminate) ltac:(discriminate) ltac:(discriminate) Hp)
    as (Hev & _ & _ & Hgen).
  split; [exact Hp|]. split; [exact Hev|].
  destruct (Hgen [dB; dC; dC] st) as (_ & _ & Hcount).
  rewrite (Hcount "C"%string ltac:(vm_compute; set_solver)). reflexivity.
Defined.

(** ** C10 *)

(** C10: in every state reached by completed discovery cycles (polling
    cycles or [force_discovery]), the key set of [models] equals
    [model_ids], and so it stays after one more completed cycle of either
    kind; a catalog entry without an "id" field is skipped entirely: the
    cycle with it inserted anywhere in the catalog has the same registry
    and the same added/removed events as the cycle without it. *)
Theorem discovery_registry_invariant (st : discovery) :
  reachable st ->
  dom (models st) = model_ids st /\
  (forall (l1 l2 : list model_data) (d : model_data), md_id d = None ->
     discover_models (l1 ++ d :: l2) st = discover_models (l1 ++ l2) st) /\
  (forall (catalog : list model_data) (st' : discovery) (evs : list event),
     discover_cycle (Some catalog) st = Some (st', evs) ->
     dom (models st') = model_ids st') /\
  (forall (fetched : option (list model_data)) (st' : discovery) (n : nat),
     force_discovery fetched st = Some (st', n) ->
     dom (models st') = model_ids st').
Proof.
  intros Hr. pose proof (reachable_invariant st Hr) as Hinv.
  split; [exact Hinv|]. split; [|split].
  - intros l1 l2 d Hd. unfold discover_models.
    rewrite (process_models_skip _ l1 l2 d) by (rewrite Hd; reflexivity).
    reflexivity.
  - intros catalog st' evs Hc. simpl in Hc. injection Hc as Hc.
    exact (discover_models_keeps_invariant _ _ _ _ Hinv Hc).
  - intros [catalog|] st' n Hf; [|discriminate].
    unfold force_discovery in Hf. simpl in Hf.
    destruct (discover_models catalog st) as [st1 evs] eqn:Hc.
    injection Hf as <- _.
    exact (discover_models_keeps_invariant _ _ _ _ Hinv Hc).
Qed.

Lemma discovery_registry_invariant_witness :
  reachable init_discovery /\
  dom (models init_discovery) = model_ids init_discovery /\
  (forall (l1 l2 : list model_data) (d : model_data), md_id d = None ->
     discover_models (l1 ++ d :: l2) init_discovery
     = discover_models (l1 ++ l2) init_discovery) /\
  (forall (catalog : list model_data) (st' : discovery) (evs : list event),
     discover_cycle (Some catalog) init_discovery = Some (st', evs) ->
     dom (models st') = model_ids st') /\
  (forall (fetched : option (list model_data)) (st' : discovery) (n : nat),
     force_discovery fetched init_discovery = Some (st', n) ->
     dom (models st') = model_ids st').
Proof.
  split; [exact reach_init|].
  exact (discovery_registry_invariant init_discovery reach_init).
Defined.

(** ** C8 *)

(** C8 (counterexample): after the third consecutive failure the wait
    is the base interval when recovery succeeds (30 s, not 60 s), and with
    a base interval of 400 s a failed recovery still waits 400 s, not
    min(800, 300) = 300 s. *)
Lemma poll_backoff_counterexample :
  poll_iteration 30 0 2 false true = (O, 30) /\ Z.min (2 * 30) 300 = 60 /\
  poll_iteration 400 0 2 false false = (3%nat, 400) /\ Z.min (2 * 400) 300 = 300.
Proof. repeat split. Qed.

(** C8 (amended): once a cycle fails with at least 2 failures before it
    (the third or a later consecutive failure), recovery is attempted; if
    it fails the counter keeps counting and the wait before the next cycle
    is max(base, min(2 x base, 300)) plus the resource-manager delay, that
    is min(2 x base, 300) for 0 <= base <= 300; if it succeeds the counter
    resets and the wait is the base interval; a successful cycle always
    resets the counter and waits the base interval; fewer failures wait
    the base interval. *)
Theorem poll_backoff_after_recovery_failure (base extra : Z) (cf : nat)
    (recovery_ok : bool) :
  (2 <= cf)%nat ->
  poll_iteration base extra cf false false
  = (S cf, Z.max base (Z.min (2 * base) 300) + extra) /\
  (0 <= base <= 300 -> Z.max base (Z.min (2 * base) 300) = Z.min (2 * base) 300) /\
  poll_iteration base extra cf false true = (O, base + extra) /\
  (forall cf', poll_iteration base extra cf' true recovery_ok = (O, base + extra)) /\
  (forall cf', (cf' < 2)%nat ->
     poll_iteration base extra cf' false recovery_ok = (S cf', base + extra)).
Proof.
  intros Hcf. unfold poll_iteration, max_consecutive_failures.
  split; [|split; [lia|split; [|split]]].
  - rewrite bool_decide_eq_true_2 by lia. f_equal. lia.
  - rewrite bool_decide_eq_true_2 by lia. reflexivity.
  - reflexivity.
  - intros cf' Hlt. rewrite bool_decide_eq_false_2 by lia. reflexivity.
Qed.

Lemma poll_backoff_after_recovery_failure_witness :
  (2 <= 2)%nat /\
  poll_iteration 30 0 2 false false = (3%nat, Z.max 30 (Z.min (2 * 30) 300) + 0) /\
  (0 <= 30 <= 300 -> Z.max 30 (Z.min (2 * 30) 300) = Z.min (2 * 30) 300) /\
  poll_iteration 30 0 2 false true = (O, 30 + 0) /\
  (forall cf', poll_iteration 30 0 cf' true false = (O, 30 + 0)) /\
  (forall cf', (cf' < 2)%nat -> poll_iteration 30 0 cf' false false = (S cf', 30 + 0)).
Proof.
  split; [lia|].
  exact (poll_backoff_after_recovery_failure 30 0 2 false ltac:(lia)).
Defined.

(** ** Further properties of discovery *)

Lemma last_entry_for_None (model_id : string) (l : list model_data) :
  last_entry_for model_id l = None <-> model_id ∉ catalog_ids l.
Proof.
  unfold last_entry_for, catalog_ids. rewrite last_None. split.
  - intros Hf Hin. apply list_elem_of_omap in Hin as [d [Hd Hid]].
    exact (filter_nil_not_elem_of _ _ d Hf Hid Hd).
  - intros Hn. destruct (filter _ l) as [|d l'] eqn:Hf; [reflexivity|]. exfalso.
    assert (Hd : d ∈ filter (fun d => truthy_id (md_id d) = Some model_id) l)
      by (rewrite Hf; left).
    apply list_elem_of_filter in Hd as [Hid Hd].
    apply Hn. apply list_elem_of_omap. exists d. split; assumption.
Qed.

Lemma process_models_lookup (old : gset string) (l : list model_data)
    (cur : gset string) (ms : gmap string model_data)
    (cur' : gset string) (ms' : gmap string model_data) (evs : list event)
    (model_id : string) :
  process_models old l cur ms = (cur', ms', evs) ->
  ms' !! model_id = match last_entry_for model_id l with
                    | Some d => Some d
                    | None => ms !! model_id
                    end.
Proof.
  revert cur ms cur' ms' evs.
  induction l as [|d l IH]; intros cur ms cur' ms' evs Heq.
  - simpl in Heq. injection Heq as <- <- <-. reflexivity.
  - unfold last_entry_for. rewrite filter_cons. simpl in Heq.
    destruct (truthy_id (md_id d)) as [mid|] eqn:Hid.
    + assert (Hrec : ms' !! model_id =
        match last_entry_for model_id l with
        | Some d' => Some d' | None => <[mid := d]> ms !! model_id end).
      { case_bool_decide.
        - exact (IH _ _ _ _ _ Heq).
        - destruct (process_models old l _ _) as [[c2 m2] e2] eqn:Hp.
          injection Heq as <- <- <-. exact (IH _ _ _ _ _ Hp). }
      rewrite Hrec. unfold last_entry_for.
      destruct (decide (Some mid = Some model_id)) as [Heqm | Hne].
      * injection Heqm as ->. rewrite last_cons.
        destruct (last _); [reflexivity|]. rewrite lookup_insert_eq. reflexivity.
      * destruct (last _); [reflexivity|].
        rewrite lookup_insert_ne; [reflexivity|]. congruence.
    + rewrite decide_False by discriminate. exact (IH _ _ _ _ _ Heq).
Qed.

Lemma remove_models_lookup (l : list string) (ms ms' : gmap string model_data)
    (evs : list event) (model_id : string) :
  remove_models l ms = (ms', evs) ->
  ms' !! model_id = if decide (model_id ∈ l) then None else ms !! model_id.
Proof.
  revert ms ms' evs. induction l as [|mid l IH]; intros ms ms' evs Heq.
  - simpl in Heq. injection Heq as <- <-. reflexivity.
  - simpl in Heq. destruct (remove_models l (delete mid ms)) as [m2 e2] eqn:Hr.
    injection Heq as <- <-. rewrite (IH _ _ _ Hr).
    destruct (decide (model_id ∈ mid :: l)) as [Hin | Hnin].
    + destruct (decide (model_id ∈ l)); [reflexivity|].
      apply elem_of_cons in Hin as [-> | Hin]; [apply lookup_delete_eq | contradiction].
    + rewrite decide_False by (intros H; apply Hnin; right; exact H).
      apply lookup_delete_ne. intros ->. apply Hnin. left.
Qed.

(** X5: after a completed discovery cycle from any reachable state,
    [get_model id] returns the last catalog entry whose "id" is [id] (a
    later duplicate overwrites an earlier one), and [None] when no entry
    of the catalog has that id: a model missing from the catalog is
    never returned, whatever the registry held before. *)
Theorem get_model_after_cycle (st st' : discovery) (catalog : list model_data)
    (evs : list event) (model_id : string) :
  reachable st ->
  discover_cycle (Some catalog) st = Some (st', evs) ->
  get_model model_id st' = last_entry_for model_id catalog.
Proof.
  intros Hr Hc. pose proof (reachable_invariant st Hr) as Hinv.
  simpl in Hc. injection Hc as Hc. unfold discover_models in Hc.
  destruct (process_models (model_ids st) catalog ∅ (models st)) as [[cur ms] added] eqn:Hp.
  destruct (process_models_spec _ _ _ _ _ _ _ Hp) as (Hcur & _ & _).
  rewrite (left_id_L ∅ union) in Hcur. subst cur.
  destruct (remove_models (elements (model_ids st ∖ list_to_set (catalog_ids catalog))) ms)
    as [ms2 removed] eqn:Hrm.
  injection Hc as <- _. unfold get_model. simpl.
  rewrite (remove_models_lookup _ _ _ _ model_id Hrm).
  rewrite (process_models_lookup _ _ _ _ _ _ _ model_id Hp).
  destruct (last_entry_for model_id catalog) as [d|] eqn:Hl.
  - assert (Hin : model_id ∈ catalog_ids catalog).
    { destruct (decide (model_id ∈ catalog_ids catalog)) as [|Hn]; [assumption|].
      apply last_entry_for_None in Hn. congruence. }
    rewrite decide_False; [reflexivity|].
    rewrite elem_of_elements. set_solver.
  - apply last_entry_for_None in Hl.
    destruct (decide (model_id ∈ elements _)); [reflexivity|].
    apply not_elem_of_dom. rewrite Hinv.
    rewrite elem_of_elements in n. set_solver.
Qed.

Lemma get_model_after_cycle_witness :
  let d0 := mkModelData (Some "old"%string) None in
  let d1 := mkModelData (Some "m"%string) (Some "a"%string) in
  let d2 := mkModelData (Some "m"%string) (Some "b"%string) in
  let st := fst (discover_models [d0] init_discovery) in
  reachable st /\
  get_model "m" (fst (discover_models [d1; d2] st)) = Some d2 /\
  get_model "old" (fst (discover_models [d1; d2] st)) = None.
Proof.
  intros d0 d1 d2 st.
  assert (Hr : reachable st).
  { apply (reach_cycle init_discovery [d0] st (snd (discover_models [d0] init_discovery)));
      [constructor | reflexivity]. }
  assert (Hc : discover_cycle (Some [d1; d2]) st
               = Some (fst (discover_models [d1; d2] st), snd (discover_models [d1; d2] st)))
    by reflexivity.
  split; [exact Hr|].
  rewrite (get_model_after_cycle st _ [d1; d2] _ "m" Hr Hc).
  rewrite (get_model_after_cycle st _ [d1; d2] _ "old" Hr Hc).
  split; reflexivity.
Defined.

(** X6: [force_discovery] run from any reachable state returns the number
    of distinct non-empty "id" values of the catalog (duplicates and
    entries without a usable id do not count), and afterwards
    [has_models] is [True] exactly when the catalog has at least one
    usable id. *)
Theorem force_discovery_count (st st' : discovery) (catalog : list model_data) (n : nat) :
  reachable st ->
  force_discovery (Some catalog) st = Some (st', n) ->
  n = size (list_to_set (catalog_ids catalog) : gset string) /\
  has_models st' = bool_decide (catalog_ids catalog <> []).
Proof.
  intros Hr Hf. pose proof (reachable_invariant st Hr) as Hinv.
  unfold force_discovery in Hf. simpl in Hf.
  destruct (discover_models catalog st) as [st1 evs] eqn:Hc.
  injection Hf as <- <-.
  pose proof (discover_models_keeps_invariant _ _ _ _ Hinv Hc) as Hinv'.
  destruct (discover_models_spec _ _ _ _ Hc) as (Hi & _ & _).
  assert (Hsize : size (models st1) = size (list_to_set (catalog_ids catalog) : gset string)).
  { rewrite <- size_dom, Hinv', Hi. reflexivity. }
  split; [exact Hsize|].
  unfold has_models. rewrite Hsize. apply bool_decide_ext. split.
  - intros Hpos Hnil. rewrite Hnil in Hpos.
    assert (H0 : size (list_to_set [] : gset string) = 0%nat) by exact size_empty. lia.
  - intros Hne. destruct (catalog_ids catalog) as [|x l] eqn:Hl; [congruence|].
    assert (Hx : x ∈ (list_to_set (x :: l) : gset string)) by set_solver.
    destruct (size (list_to_set (x :: l) : gset string)) eqn:Hs; [|lia].
    apply size_empty_inv in Hs. set_solver.
Qed.

Lemma force_discovery_count_witness :
  let d1 := mkModelData (Some "m"%string) None in
  let d2 := mkModelData (Some ""%string) None in
  force_discovery (Some [d1; d1; d2]) init_discovery
  = Some (fst (discover_models [d1; d1; d2] init_discovery), 1%nat) /\
  1%nat = size (list_to_set (catalog_ids [d1; d1; d2]) : gset string).
Proof.
  intros d1 d2.
  assert (Hf : force_discovery (Some [d1; d1; d2]) init_discovery
               = Some (fst (discover_models [d1; d1; d2] init_discovery), 1%nat))
    by (vm_compute; reflexivity).
  split; [exact Hf|].
  exact (proj1 (force_discovery_count init_discovery _ [d1; d1; d2] 1 reach_init Hf)).
Defined.

(** X7: whatever the outcomes of discovery and recovery, every wait of
    the polling loop between two cycles lies between the base interval
    and max(base interval, 300 s), plus the resource-manager delay. *)
Theorem poll_waits_bounded (base extra : Z) (cf : nat) (outcomes : list (bool * bool)) :
  Forall (fun w => base + extra <= w <= Z.max base 300 + extra)
    (poll_run base extra cf outcomes).2.
Proof.
  revert cf. induction outcomes as [|[ok rec_ok] rest IH]; intros cf; simpl; [constructor|].
  destruct (poll_iteration base extra cf ok rec_ok) as [cf' w] eqn:Hp.
  specialize (IH cf').
  destruct (poll_run base extra cf' rest) as [cf'' ws]. simpl in IH |- *.
  constructor; [|exact IH].
  unfold poll_iteration in Hp.
  destruct ok; [injection Hp as _ <-; lia|].
  case_bool_decide; [destruct rec_ok|]; injection Hp as _ <-; lia.
Qed.

(** X4: when LM Studio is down (every attempt times out or fails at the
    transport level) and max_retries is at most 3, one
    [_attempt_recovery] of discovery fails after 2 x (max_retries+1) HTTP
    attempts: those of the client's [attempt_recovery], which resets the
    breaker, and those of the follow-up [health_check], which the still
    closed breaker lets through.  The failure counter ends at
    2 x (max_retries+1), and the breaker is OPEN exactly when
    max_retries >= 2 (so with the default 3: 8 attempts and an OPEN
    breaker). *)
Theorem recovery_when_server_down (close_ok : bool) (mr : nat) (now1 now2 : Z)
    (e1 e2 : HttpClient.env) (c : HttpClient.client) :
  close_ok = true ->
  (mr <= 3)%nat ->
  (forall j, match snd (e1 j) with HttpClient.Response _ => False | _ => True end) ->
  (forall j, match snd (e2 j) with HttpClient.Response _ => False | _ => True end) ->
  let '(c', ok, n) := attempt_recovery close_ok mr now1 e1 now2 e2 c in
  ok = false /\ n = (2 * S mr)%nat /\
  HttpClient.circuit_breaker_failures c' = Z.of_nat (2 * S mr) /\
  (HttpClient.is_circuit_open c' = true <-> (2 <= mr)%nat).
Proof.
  intros -> Hmr H1 H2.
  unfold attempt_recovery, HttpClient.attempt_recovery, HttpClient.health_check,
    HttpClient.make_request.
  set (c0 := HttpClient.mkClient 0 (HttpClient.circuit_breaker_last_failure c) false
               (HttpClient.connection_healthy c) (HttpClient.last_successful_request c)).
  assert (Hchk0 : HttpClient.check_circuit_breaker now1 c0 = (c0, true)) by reflexivity.
  rewrite Hchk0. cbn [negb].
  pose proof (HttpClientProofs.attempts_spec e1 (S mr) O c0) as Hs1.
  pose proof (HttpClientProofs.attempts_transport_failures e1 (S mr) O c0 H1) as Ht1.
  destruct (HttpClient.attempts e1 (S mr) O c0) as [[c1 r1] n1].
  simpl in Ht1. destruct Ht1 as [-> ->].
  destruct Hs1 as (_ & _ & _ & _ & Hf1).
  destruct (Hf1 ltac:(discriminate)) as [Hc1 Ho1]. simpl in Hc1, Ho1.
  assert (Hclosed : HttpClient.is_circuit_open c1 = false).
  { destruct (HttpClient.is_circuit_open c1) eqn:E; [|reflexivity].
    exfalso. destruct (proj1 Ho1 eq_refl) as [H | [_ H]]; [discriminate|].
    unfold HttpClient.circuit_breaker_threshold in H. lia. }
  cbn -[HttpClient.attempts HttpClient.check_circuit_breaker].
  assert (Hchk1 : HttpClient.check_circuit_breaker now2 c1 = (c1, true)).
  { unfold HttpClient.check_circuit_breaker. rewrite Hclosed. simpl. rewrite Hclosed. reflexivity. }
  rewrite Hchk1. cbn [negb].
  pose proof (HttpClientProofs.attempts_spec e2 (S mr) O c1) as Hs2.
  pose proof (HttpClientProofs.attempts_transport_failures e2 (S mr) O c1 H2) as Ht2.
  destruct (HttpClient.attempts e2 (S mr) O c1) as [[c2 r2] n2].
  simpl in Ht2. destruct Ht2 as [-> ->].
  destruct Hs2 as (_ & _ & _ & _ & Hf2).
  destruct (Hf2 ltac:(discriminate)) as [Hc2 Ho2].
  simpl. split; [reflexivity|]. split; [lia|]. split; [lia|].
  rewrite Ho2, Hclosed. unfold HttpClient.circuit_breaker_threshold.
  split; [intros [H | [_ H]]; [discriminate | lia] | intros H; right; split; lia].
Qed.

Lemma recovery_when_server_down_witness :
  attempt_recovery true 3 0 (fun _ => (0, HttpClient.RequestErr)) 10
    (fun _ => (10, HttpClient.TimeoutExc)) (HttpClient.init_client 0)
  = (HttpClient.mkClient 8 10 true false 0, false, 8%nat) /\
  HttpClient.is_circuit_open (HttpClient.mkClient 8 10 true false 0) = true.
Proof.
  pose proof (recovery_when_server_down true 3 0 10 (fun _ => (0, HttpClient.RequestErr))
    (fun _ => (10, HttpClient.TimeoutExc)) (HttpClient.init_client 0) eq_refl ltac:(lia)
    (fun _ => I) (fun _ => I)) as H.
  destruct (attempt_recovery true 3 0 _ 10 _ _) as [[c' ok] n] eqn:E.
  assert (E' := E). vm_compute in E'. injection E' as <- <- <-.
  destruct H as (_ & _ & _ & Ho). split; [reflexivity | apply Ho; lia].
Defined.

End DiscoveryProofs.

Module GatewayProofs.
Import Gateway.

Lemma get_service_for_tool_none (reg : registry) (tool_name : string) :
  Forall (fun p => ~ serves tool_name p.2) reg ->
  get_service_for_tool reg tool_name = None.
Proof.
  induction reg as [|[nm info] reg IH]; intros Hall; [reflexivity|].
  inversion Hall as [|? ? Hn Hrest]; subst. simpl in Hn. simpl.
  destruct (healthy info) eqn:Hh; [|apply IH; exact Hrest].
  destruct (tools info) as [keys|] eqn:Ht; [|apply IH; exact Hrest].
  case_bool_decide as Hin; [|apply IH; exact Hrest].
  exfalso. apply Hn. split; [exact Hh|]. exists keys. split; assumption.
Qed.

Lemma get_service_for_tool_first (pre post : registry) (nm : string)
    (info : service_info) (tool_name : string) :
  Forall (fun p => ~ serves tool_name p.2) pre ->
  serves tool_name info ->
  get_service_for_tool (pre ++ (nm, info) :: post) tool_name = Some (url info).
Proof.
  intros Hpre [Hh (keys & Ht & Hin)].
  induction pre as [|[nm' info'] pre IH].
  - simpl. rewrite Hh, Ht. rewrite bool_decide_eq_true_2 by exact Hin. reflexivity.
  - inversion Hpre as [|? ? Hn Hrest]; subst. simpl in Hn. simpl.
    destruct (healthy info') eqn:Hh'; [|apply IH; exact Hrest].
    destruct (tools info') as [keys'|] eqn:Ht'; [|apply IH; exact Hrest].
    case_bool_decide as Hin'; [|apply IH; exact Hrest].
    exfalso. apply Hn. split; [exact Hh'|]. exists keys'. split; assumption.
Qed.

(** ** C4 *)

(** C4 (counterexample): a healthy entry whose catalog has "x" but whose
    URL is the empty string gives [service_not_found], and an HTTP 200
    whose body is not JSON gives [forward_error], not [success]. *)
Lemma route_counterexample :
  let net : http_env := fun _ _ => PostResponse 200 (Some "r") in
  route_tool_request net [("lm-studio-bridge", mkServiceInfo "" (ToolsDict ["x"]) true)] "x"
  = RouteServiceNotFound "x" /\
  route_tool_request (fun _ _ => PostResponse 200 None)
    [("lm-studio-bridge", mkServiceInfo "http://b:3000" (ToolsDict ["x"]) true)] "x"
  = RouteForwardError "http://b:3000".
Proof. split; vm_compute; reflexivity. Qed.

(** C4 (amended): [route_tool_request] picks the first healthy registry
    entry whose "tools" object has [tool_name] as a key; with no such
    entry (in particular with the empty registry), or when that entry's
    URL is empty, it returns [service_not_found].  Otherwise it posts to
    [{url}/mcp/tools/{tool_name}] with a 30 s timeout and maps HTTP 200
    with a JSON body to [success] carrying that body, HTTP 200 with a
    non-JSON body to [forward_error], any other status to
    [service_error], a timeout to [timeout] and any other transport error
    to [forward_error]. *)
Theorem route_tool_request_spec (net : http_env) (reg : registry) (tool_name : string) :
  (Forall (fun p => ~ serves tool_name p.2) reg ->
   route_tool_request net reg tool_name = RouteServiceNotFound tool_name) /\
  route_tool_request net [] tool_name = RouteServiceNotFound tool_name /\
  (forall pre nm info post,
     reg = pre ++ (nm, info) :: post ->
     Forall (fun p => ~ serves tool_name p.2) pre ->
     serves tool_name info ->
     let u := url info in
     let target := (u +:+ "/mcp/tools/" +:+ tool_name)%string in
     (u = ""%string -> route_tool_request net reg tool_name = RouteServiceNotFound tool_name) /\
     (u <> ""%string ->
        (forall j, net target 30%Q = PostResponse 200 (Some j) ->
           route_tool_request net reg tool_name = RouteSuccess j u) /\
        (net target 30%Q = PostResponse 200 None ->
           route_tool_request net reg tool_name = RouteForwardError u) /\
        (forall code body, code <> 200 -> net target 30%Q = PostResponse code body ->
           route_tool_request net reg tool_name = RouteServiceError code u) /\
        (net target 30%Q = PostTimeout ->
           route_tool_request net reg tool_name = RouteTimeout u) /\
        (forall msg, net target 30%Q = PostError msg ->
           route_tool_request net reg tool_name = RouteForwardError u))).
Proof.
  split; [|split].
  - intros Hall. unfold route_tool_request.
    rewrite get_service_for_tool_none by exact Hall. reflexivity.
  - reflexivity.
  - intros pre nm info post -> Hpre Hs u target.
    unfold route_tool_request.
    rewrite (get_service_for_tool_first pre post nm info tool_name Hpre Hs).
    split.
    + intros Hu. rewrite bool_decide_eq_true_2 by exact Hu. reflexivity.
    + intros Hu. rewrite bool_decide_eq_false_2 by exact Hu.
      unfold forward_request, forward_timeout. fold u. fold target.
      split; [intros j Hn; rewrite Hn; reflexivity|].
      split; [intros Hn; rewrite Hn; reflexivity|].
      split; [intros code body Hc Hn; rewrite Hn;
              rewrite bool_decide_eq_false_2 by exact Hc; reflexivity|].
      split; [intros Hn; rewrite Hn; reflexivity|].
      intros msg Hn; rewrite Hn; reflexivity.
Qed.

Lemma route_tool_request_spec_witness :
  let reg : registry := [("lm-studio-bridge", mkServiceInfo "http://b:3000" (ToolsDict ["x"]) true)] in
  let net : http_env := fun _ _ => PostResponse 200 (Some "42") in
  route_tool_request net reg "x" = RouteSuccess "42" "http://b:3000" /\
  route_tool_request net [] "x" = RouteServiceNotFound "x".
Proof.
  intros reg net.
  destruct (route_tool_request_spec net reg "x") as (_ & Hempty & Hmatch).
  assert (Hs : serves "x" (mkServiceInfo "http://b:3000" (ToolsDict ["x"]) true)).
  { split; [reflexivity|]. exists ["x"%string]. split; [reflexivity | constructor]. }
  destruct (Hmatch [] "lm-studio-bridge" (mkServiceInfo "http://b:3000" (ToolsDict ["x"]) true) []
              eq_refl ltac:(constructor) Hs) as [_ Hfwd].
  destruct (Hfwd ltac:(discriminate)) as [Hok _].
  split; [apply Hok; reflexivity | exact Hempty].
Defined.

(** ** Further properties of the gateway registry and the router *)

Lemma remove_bridge_shaped (reg : registry) :
  (reg = [] \/ exists t u, reg = [(bridge_name, mkServiceInfo u t true)]) ->
  remove_service bridge_name reg = [].
Proof.
  intros [-> | (t & u & ->)]; [reflexivity|].
  reflexivity.
Qed.

Lemma update_bridge_shaped (bridge_url : string) (t : tools_json) (reg : registry) :
  (reg = [] \/ exists t' u, reg = [(bridge_name, mkServiceInfo u t' true)]) ->
  update_service_registry bridge_url bridge_name t reg
  = [(bridge_name, mkServiceInfo bridge_url t true)].
Proof.
  intros [-> | (t' & u & ->)]; [reflexivity|].
  reflexivity.
Qed.

(** One round on a registry holding at most the bridge entry. *)
Lemma discover_services_shaped (bridge_url : string) (h : option Z)
    (tr : option (Z * option tools_json)) (reg : registry) :
  (reg = [] \/ exists t u, reg = [(bridge_name, mkServiceInfo u t true)]) ->
  (forall t, h = Some 200 -> tr = Some (200, Some t) ->
     discover_services bridge_url h tr reg = [(bridge_name, mkServiceInfo bridge_url t true)]) /\
  ((forall t, ~ (h = Some 200 /\ tr = Some (200, Some t))) ->
     discover_services bridge_url h tr reg = []).
Proof.
  intros Hs. split.
  - intros t -> ->. unfold discover_services.
    rewrite bool_decide_eq_false_2 by congruence.
    rewrite bool_decide_eq_true_2 by reflexivity.
    apply update_bridge_shaped. exact Hs.
  - intros Hn. unfold discover_services.
    destruct h as [hc|]; [|apply remove_bridge_shaped; exact Hs].
    case_bool_decide as Hhc; [apply remove_bridge_shaped; exact Hs|].
    destruct tr as [[tc body]|]; [|apply remove_bridge_shaped; exact Hs].
    case_bool_decide as Htc; [|apply remove_bridge_shaped; exact Hs].
    destruct body as [t|]; [|apply remove_bridge_shaped; exact Hs].
    exfalso. apply (Hn t). split; [f_equal; lia | subst tc; reflexivity].
Qed.

Lemma discovery_rounds_shaped (bridge_url : string)
    (rounds : list (option Z * option (Z * option tools_json))) :
  let reg := discovery_rounds bridge_url rounds [] in
  reg = [] \/ exists t u, reg = [(bridge_name, mkServiceInfo u t true)].
Proof.
  unfold discovery_rounds.
  assert (Hgen : forall reg : registry,
    (reg = [] \/ exists t u, reg = [(bridge_name, mkServiceInfo u t true)]) ->
    let reg' := fold_left (fun reg r => discover_services bridge_url r.1 r.2 reg) rounds reg in
    reg' = [] \/ exists t u, reg' = [(bridge_name, mkServiceInfo u t true)]).
  { induction rounds as [|[h tr] rounds IH]; intros reg Hs; [exact Hs|].
    simpl. apply IH.
    destruct (discover_services_shaped bridge_url h tr reg Hs) as [Hok Hko].
    destruct h as [hc|]; [|left; apply Hko; intros t [Hc _]; discriminate].
    destruct (decide (hc = 200)) as [->|Hhc];
      [|left; apply Hko; intros t [Hc _]; congruence].
    destruct tr as [[tc body]|]; [|left; apply Hko; intros t [_ Hc]; discriminate].
    destruct (decide (tc = 200)) as [->|Htc];
      [|left; apply Hko; intros t [_ Hc]; congruence].
    destruct body as [t|]; [|left; apply Hko; intros t [_ Hc]; discriminate].
    right. exists t, bridge_url. exact (Hok t eq_refl eq_refl). }
  apply Hgen. left. reflexivity.
Qed.

(** X8: starting from the empty registry, after any sequence of
    [_discover_services] rounds the registry reflects only the last
    round: it holds the single entry ["lm-studio-bridge"] (with the
    bridge URL, the tools JSON of that round and healthy = [True]) when
    the last round got HTTP 200 from [/health] and HTTP 200 with a JSON
    body from [/mcp/tools], and is empty otherwise; so
    [get_registry_status] reports as many healthy services as services,
    at most one. *)
Theorem registry_reflects_last_round (bridge_url : string)
    (rounds : list (option Z * option (Z * option tools_json)))
    (h : option Z) (tr : option (Z * option tools_json)) :
  let reg := discovery_rounds bridge_url (rounds ++ [(h, tr)]) [] in
  (forall t, h = Some 200 -> tr = Some (200, Some t) ->
     reg = [(bridge_name, mkServiceInfo bridge_url t true)]) /\
  ((forall t, ~ (h = Some 200 /\ tr = Some (200, Some t))) -> reg = []) /\
  registry_status reg = (length reg, length reg) /\ (length reg <= 1)%nat.
Proof.
  unfold discovery_rounds. rewrite fold_left_app. simpl.
  pose proof (discovery_rounds_shaped bridge_url rounds) as Hs.
  unfold discovery_rounds in Hs. simpl in Hs.
  destruct (discover_services_shaped bridge_url h tr _ Hs) as [Hok Hko].
  split; [exact Hok|]. split; [exact Hko|].
  pose proof (discovery_rounds_shaped bridge_url (rounds ++ [(h, tr)])) as Hs'.
  unfold discovery_rounds in Hs'. rewrite fold_left_app in Hs'. simpl in Hs'.
  destruct Hs' as [-> | (t & u & ->)]; split; reflexivity || (simpl; lia).
Qed.

Lemma registry_reflects_last_round_witness :
  discovery_rounds "http://b:3000" [(Some 200, Some (200, Some (ToolsDict ["x"])));
                                    (Some 500, None)] [] = [] /\
  discovery_rounds "http://b:3000" [(None, None); (Some 200, Some (200, Some ToolsOther))] []
  = [(bridge_name, mkServiceInfo "http://b:3000" ToolsOther true)].
Proof.
  destruct (registry_reflects_last_round "http://b:3000"
    [(Some 200, Some (200, Some (ToolsDict ["x"])))] (Some 500) None) as (_ & Hko & _).
  destruct (registry_reflects_last_round "http://b:3000"
    [(None, None)] (Some 200) (Some (200, Some ToolsOther))) as (Hok & _).
  split.
  - apply Hko. intros t [Hc _]. discriminate.
  - exact (Hok ToolsOther eq_refl eq_refl).
Defined.

(** X9: starting from the empty registry, after any sequence of
    discovery rounds, [get_service_for_tool] returns the bridge URL for
    [tool_name] exactly when the last round succeeded and its tools JSON
    is an object with key [tool_name]; otherwise it returns [None]. *)
Theorem tool_lookup_after_rounds (bridge_url : string)
    (rounds : list (option Z * option (Z * option tools_json)))
    (h : option Z) (tr : option (Z * option tools_json)) (tool_name : string) :
  let reg := discovery_rounds bridge_url (rounds ++ [(h, tr)]) [] in
  (get_service_for_tool reg tool_name = Some bridge_url <->
   exists keys, h = Some 200 /\ tr = Some (200, Some (ToolsDict keys)) /\ tool_name ∈ keys) /\
  (get_service_for_tool reg tool_name = None \/
   get_service_for_tool reg tool_name = Some bridge_url).
Proof.
  unfold discovery_rounds. rewrite fold_left_app. simpl.
  pose proof (discovery_rounds_shaped bridge_url rounds) as Hs.
  unfold discovery_rounds in Hs. simpl in Hs.
  destruct (discover_services_shaped bridge_url h tr _ Hs) as [Hok Hko].
  assert (Hdec : (exists t, h = Some 200 /\ tr = Some (200, Some t)) \/
                 (forall t, ~ (h = Some 200 /\ tr = Some (200, Some t)))).
  { destruct h as [hc|]; [|right; intros t [H _]; discriminate].
    destruct (decide (hc = 200)) as [->|Hhc]; [|right; intros t [H _]; congruence].
    destruct tr as [[tc body]|]; [|right; intros t [_ H]; discriminate].
    destruct (decide (tc = 200)) as [->|Htc]; [|right; intros t [_ H]; congruence].
    destruct body as [t|]; [left; exists t; auto | right; intros t [_ H]; discriminate]. }
  destruct Hdec as [[t [Hh Htr]] | Hn].
  - rewrite (Hok t Hh Htr). simpl. destruct t as [keys|].
    + case_bool_decide as Hin.
      * split; [|right; reflexivity].
        split; [intros _; exists keys; auto|reflexivity].
      * split; [|left; reflexivity]. split; [discriminate|].
        intros (keys' & _ & Htr' & Hin'). rewrite Htr in Htr'.
        injection Htr' as <-. contradiction.
    + split; [|left; reflexivity]. split; [discriminate|].
      intros (keys' & _ & Htr' & _). rewrite Htr in Htr'. discriminate.
  - rewrite (Hko Hn). simpl.
    split; [|left; reflexivity]. split; [discriminate|].
    intros (keys & Hh & Htr & _). exfalso. exact (Hn (ToolsDict keys) (conj Hh Htr)).
Qed.

Lemma tool_lookup_after_rounds_witness :
  get_service_for_tool
    (discovery_rounds "http://b:3000" [(None, None);
       (Some 200, Some (200, Some (ToolsDict ["chat"; "x"])))] []) "x"
  = Some "http://b:3000"%string.
Proof.
  destruct (tool_lookup_after_rounds "http://b:3000" [(None, None)] (Some 200)
    (Some (200, Some (ToolsDict ["chat"; "x"]))) "x") as [[_ H] _].
  apply H. exists ["chat"; "x"]%string. split; [reflexivity|]. split; [reflexivity|].
  right. left.
Defined.

Lemma get_next_service_cons (services : list string) (counters : gmap string nat) :
  services <> [] ->
  get_next_service services counters
  = Some (services !!! (default O (counters !! join_comma (sort_strings services))
                          mod length services)%nat,
          <[join_comma (sort_strings services) :=
              S (default O (counters !! join_comma (sort_strings services)))]> counters).
Proof.
  intros Hne. destruct services as [|s0 rest]; [congruence|].
  unfold get_next_service. cbv beta iota zeta.
  set (c0 := default O _).
  assert (Hlt : (c0 mod length (s0 :: rest) < length (s0 :: rest))%nat)
    by (apply Nat.mod_upper_bound; simpl; lia).
  destruct (lookup_lt_is_Some_2 (s0 :: rest) _ Hlt) as [x Hx].
  rewrite Hx, list_lookup_total_alt, Hx. reflexivity.
Qed.

Lemma next_services_spec (services : list string) (m : nat) (counters : gmap string nat) :
  services <> [] ->
  let key := join_comma (sort_strings services) in
  let c0 := default O (counters !! key) in
  exists counters',
    next_services m services counters
    = Some (map (fun i => services !!! ((c0 + i) mod length services)%nat) (seq 0 m),
            counters') /\
    (0 < m -> counters' = <[key := (c0 + m)%nat]> counters)%nat.
Proof.
  intros Hne key. revert counters. induction m as [|m IH]; intros counters c0.
  - exists counters. split; [reflexivity | lia].
  - simpl. rewrite (get_next_service_cons services counters Hne). fold key. fold c0.
    destruct (IH (<[key := S c0]> counters)) as (counters' & Hrec & Hc).
    rewrite lookup_insert_eq in Hrec, Hc. simpl in Hrec, Hc. rewrite Hrec.
    exists counters'. split.
    + rewrite Nat.add_0_r. do 3 f_equal.
      rewrite <- seq_shift, map_map. apply map_ext. intros i.
      rewrite Nat.add_succ_r. reflexivity.
    + intros _. destruct m as [|m].
      * simpl in Hrec. injection Hrec as <-. f_equal. lia.
      * rewrite Hc by lia. rewrite insert_insert_eq. f_equal. lia.
Qed.

(** X10: [_get_next_service] raises on an empty list; on a list of n
    services, n successive calls with that list select every service of
    it at least once (round robin, from the counter stored under the
    sorted, comma-joined key), and leave that counter increased by n. *)
Theorem round_robin_covers (services : list string) (counters : gmap string nat) :
  get_next_service [] counters = None /\
  (services <> [] ->
   let key := join_comma (sort_strings services) in
   exists xs counters',
     next_services (length services) services counters = Some (xs, counters') /\
     (forall s, s ∈ services -> s ∈ xs) /\
     counters' !! key = Some (default O (counters !! key) + length services)%nat).
Proof.
  split; [reflexivity|]. intros Hne key.
  set (n := length services). set (c0 := default O (counters !! key)).
  assert (Hn : (0 < n)%nat) by (unfold n; destruct services; [congruence | simpl; lia]).
  destruct (next_services_spec services n counters Hne) as (counters' & Hrun & Hc).
  fold key in Hrun, Hc. fold c0 in Hrun, Hc. fold n in Hrun.
  eexists _, counters'. split; [exact Hrun|]. split.
  - intros s Hs. apply list_elem_of_lookup in Hs as [j Hj].
    assert (Hjn : (j < n)%nat) by (apply lookup_lt_Some in Hj; exact Hj).
    set (r := (c0 mod n)%nat).
    assert (Hr : (r < n)%nat) by (apply Nat.mod_upper_bound; lia).
    assert (Hdiv : c0 = (n * (c0 / n) + r)%nat) by apply Nat.div_mod_eq.
    set (i := if decide (r <= j)%nat then (j - r)%nat else (n - r + j)%nat).
    assert (Hi : (i < n)%nat) by (unfold i; destruct (decide (r <= j)%nat); lia).
    assert (Hmod : ((c0 + i) mod n = j)%nat).
    { destruct (decide (r <= j)%nat) as [Hle|Hgt].
      - replace (c0 + i)%nat with (j + (c0 / n) * n)%nat
          by (unfold i; nia).
        rewrite Nat.Div0.mod_add. apply Nat.mod_small. exact Hjn.
      - replace (c0 + i)%nat with (j + (S (c0 / n)) * n)%nat
          by (unfold i; simpl; nia).
        rewrite Nat.Div0.mod_add. apply Nat.mod_small. exact Hjn. }
    apply list_elem_of_In, in_map_iff. exists i. split.
    + rewrite Hmod, list_lookup_total_alt, Hj. reflexivity.
    + apply in_seq. lia.
  - rewrite (Hc Hn). apply lookup_insert_eq.
Qed.

Lemma round_robin_covers_witness :
  exists xs counters',
    next_services 3 ["b"; "a"; "c"] ∅ = Some (xs, counters') /\ "a"%string ∈ xs.
Proof.
  destruct (round_robin_covers ["b"; "a"; "c"] ∅) as [_ H].
  destruct (H ltac:(discriminate)) as (xs & c' & Hrun & Hcov & _).
  exists xs, c'. split; [exact Hrun | apply Hcov; right; left].
Defined.

End GatewayProofs.

Module AggregatorProofs.
Import Aggregator.

Lemma simulate_service_call_done (c : call_info) : simulate_service_call c = SimDone.
Proof. reflexivity. Qed.

Lemma parallel_all_failed (sim : call_info -> sim_outcome) (calls : list call_info) :
  Forall (fun c => sim c <> SimDone) calls ->
  first_success (map (execute_call_with_timeout sim) calls) = None /\
  collect_errors (map (execute_call_with_timeout sim) calls)
  = map (fun c => (service_of c, error_text (sim c))) calls.
Proof.
  induction calls as [|c calls IH]; intros Hall; [split; reflexivity|].
  inversion Hall as [|? ? Hc Hrest]; subst.
  destruct (IH Hrest) as [Hf He].
  cbn [map]. remember (execute_call_with_timeout sim c) as r eqn:Hr.
  unfold execute_call_with_timeout in Hr.
  destruct (sim c) as [| |msg]; [congruence| |]; subst r; simpl;
    (split; [exact Hf|]); rewrite He; reflexivity.
Qed.

(** ** C5 *)

(** C5 (counterexample): a single call is not routed: [aggregate] returns
    the placeholder success whatever the registry holds, while the router
    answers [service_not_found] on the empty registry. *)
Lemma aggregate_single_counterexample :
  let c := mkCall (Some "lm-studio-bridge") (Some "x") in
  aggregate_responses [c]
  = AggResponse (mkResponse "success" (Some "Single call executed") None
                   (Some "lm-studio-bridge")) /\
  Gateway.route_tool_request (fun _ _ => Gateway.PostTimeout) [] "x"
  = Gateway.RouteServiceNotFound "x" /\
  Gateway.status (Gateway.RouteServiceNotFound "x") <> "success"%string.
Proof. split; [reflexivity|]. split; [reflexivity|]. discriminate. Qed.

(** C5 (amended): an empty list gives [no_calls]; a single call is not
    forwarded through the Router but answered with the placeholder
    [{result: "Single call executed", service, status: success}]; several
    calls are each run as a simulated call under the 30 s timeout, which
    always completes, so the result is the first call's success
    [{result: "Call executed successfully", service, status: success}] and
    [all_failed] never occurs.  The [all_failed] branch itself lists, in
    input order, each failed call's service and error text. *)
Theorem aggregate_responses_spec (calls : list call_info) :
  (calls = [] ->
   aggregate_responses calls
   = AggResponse (mkResponse "no_calls" None (Some "No service calls provided") None)) /\
  (forall c, calls = [c] ->
   aggregate_responses calls
   = AggResponse (mkResponse "success" (Some "Single call executed") None
                    (Some (service_of c)))) /\
  (forall c1 c2 rest, calls = c1 :: c2 :: rest ->
   aggregate_responses calls
   = AggResponse (mkResponse "success" (Some "Call executed successfully") None
                    (Some (service_of c1)))) /\
  (forall errors, aggregate_responses calls <> AggAllFailed errors) /\
  (forall sim, Forall (fun c => sim c <> SimDone) calls ->
   execute_parallel_calls sim calls
   = AggAllFailed (map (fun c => (service_of c, error_text (sim c))) calls)).
Proof.
  split; [intros ->; reflexivity|].
  split; [intros c ->; reflexivity|].
  split; [intros c1 c2 rest ->; reflexivity|].
  split.
  - intros errors. destruct calls as [|c1 [|c2 rest]]; discriminate.
  - intros sim Hall. unfold execute_parallel_calls.
    destruct (parallel_all_failed sim calls Hall) as [Hf He].
    rewrite Hf, He. reflexivity.
Qed.

Lemma aggregate_responses_spec_witness :
  let c1 := mkCall (Some "a") None in
  let c2 := mkCall None None in
  aggregate_responses [c1; c2]
  = AggResponse (mkResponse "success" (Some "Call executed successfully") None (Some "a")) /\
  execute_parallel_calls (fun _ => SimTimeout) [c1; c2]
  = AggAllFailed [("a", "Service timeout"); ("unknown", "Service timeout")].
Proof.
  intros c1 c2.
  destruct (aggregate_responses_spec [c1; c2]) as (_ & _ & Hmany & _ & Hfail).
  split; [exact (Hmany c1 c2 [] eq_refl)|].
  apply Hfail. repeat constructor; discriminate.
Defined.

Lemma first_success_app_none (l1 l2 : list response) :
  first_success l1 = None -> first_success (l1 ++ l2) = first_success l2.
Proof.
  induction l1 as [|r l1 IH]; intros H; [reflexivity|].
  simpl in H |- *. case_bool_decide; [discriminate | exact (IH H)].
Qed.

(** X11: for any behaviour of the awaited calls, when some call
    completes, [_execute_parallel_calls] returns the success response of
    the first completed call in input order (its service), whatever the
    calls after it do; calls before it that timed out or raised are
    dropped. *)
Theorem parallel_first_success (sim : call_info -> sim_outcome)
    (pre : list call_info) (c : call_info) (post : list call_info) :
  Forall (fun c' => sim c' <> SimDone) pre ->
  sim c = SimDone ->
  execute_parallel_calls sim (pre ++ c :: post)
  = AggResponse (mkResponse "success" (Some "Call executed successfully") None
                   (Some (service_of c))).
Proof.
  intros Hpre Hc. unfold execute_parallel_calls. rewrite map_app.
  destruct (parallel_all_failed sim pre Hpre) as [Hf _].
  assert (Hr : execute_call_with_timeout sim c
               = mkResponse "success" (Some "Call executed successfully") None
                   (Some (service_of c)))
    by (unfold execute_call_with_timeout; rewrite Hc; reflexivity).
  rewrite (first_success_app_none _ _ Hf). simpl. rewrite Hr. reflexivity.
Qed.

Lemma parallel_first_success_witness :
  let a := mkCall (Some "a") None in
  let b := mkCall (Some "b") None in
  let sim := fun c => if bool_decide (call_service c = Some "a"%string)
                      then SimTimeout else SimDone in
  execute_parallel_calls sim [a; b; a]
  = AggResponse (mkResponse "success" (Some "Call executed successfully") None (Some "b")).
Proof.
  intros a b sim.
  exact (parallel_first_success sim [a] b [a]
           ltac:(constructor; [vm_compute; discriminate | constructor]) eq_refl).
Defined.

End AggregatorProofs.

Module PredictiveProofs.
Import Predictive.
Open Scope Q_scope.

Lemma last_map_snoc {A B} (f : A -> B) (x : A) (mid : list A) (y : A) :
  last (map f (x :: mid ++ [y])) = Some (f y).
Proof.
  rewrite app_comm_cons, map_app. simpl. rewrite app_comm_cons. apply last_snoc.
Qed.

(** ** C6 *)

(** C6 (counterexample): five samples one unit apart every 10 s give a
    trend of 360 over both the 1-hour and the 24-hour window, not
    (4 - 0) / window x scale = 4; a buffer of 7 samples with only 2 inside
    the window gives a non-zero trend. *)
Lemma trend_counterexample :
  let data : history := [(0, 0); (10, 1); (20, 2); (30, 3); (40, 4)] in
  let data2 : history := [(0, 0); (1, 0); (2, 0); (3, 0); (4, 0); (7000, 1); (7200, 3)] in
  calculate_trend data 3600 40 == 360 /\
  ~ (calculate_trend data 3600 40 == (4 - 0) / 3600 * 3600) /\
  ~ (calculate_trend data 86400 40 == (4 - 0) / 86400 * 86400) /\
  (length (in_window data2 3600 7200) = 2)%nat /\
  calculate_trend data2 3600 7200 == 36.
Proof.
  intros data data2.
  split; [vm_compute; reflexivity|].
  split; [vm_compute; discriminate|].
  split; [vm_compute; discriminate|].
  split; vm_compute; reflexivity.
Qed.

(** C6 (amended): the trend is 0 when the whole buffer holds fewer than
    5 samples (and then no memory or disk cleanup is scheduled), or when
    fewer than 2 samples lie inside the look-back window, or when they
    span no time; otherwise, for the 1-hour window of the per-hour trends
    (memory, CPU), it is (last value - first value) / (last time - first
    time) x 3600 over the samples inside the window. *)
Theorem calculate_trend_spec (data : history) (window_seconds current_time : Q) :
  ((length data < 5)%nat -> calculate_trend data window_seconds current_time = 0) /\
  ((length (in_window data window_seconds current_time) < 2)%nat ->
   calculate_trend data window_seconds current_time = 0) /\
  (forall t0 v0 t1 v1 mid,
     in_window data window_seconds current_time = (t0, v0) :: mid ++ [(t1, v1)] ->
     t1 - t0 == 0 -> calculate_trend data window_seconds current_time = 0) /\
  (forall t0 v0 t1 v1 mid, (5 <= length data)%nat ->
     in_window data 3600 current_time = (t0, v0) :: mid ++ [(t1, v1)] ->
     ~ (t1 - t0 == 0) ->
     calculate_trend data 3600 current_time = (v1 - v0) / (t1 - t0) * 3600) /\
  (forall m, (length (memory_history m) < 5)%nat ->
     MemoryCleanup ∉ analyze_patterns m current_time) /\
  (forall m, (length (disk_history m) < 5)%nat ->
     DiskCleanup ∉ analyze_patterns m current_time).
Proof.
  assert (Hshort : forall d w, (length d < 5)%nat -> calculate_trend d w current_time = 0).
  { intros d w Hl. unfold calculate_trend, min_data_points.
    rewrite bool_decide_eq_true_2 by exact Hl. reflexivity. }
  split; [apply Hshort|].
  split.
  { intros Hw. unfold calculate_trend.
    case_bool_decide; [reflexivity|]. rewrite bool_decide_eq_true_2 by exact Hw.
    reflexivity. }
  split.
  { intros t0 v0 t1 v1 mid Hw Hz. unfold calculate_trend.
    case_bool_decide; [reflexivity|]. rewrite Hw.
    case_bool_decide; [reflexivity|].
    rewrite last_map_snoc. simpl.
    apply Qeq_bool_iff in Hz. rewrite Hz. reflexivity. }
  split.
  { intros t0 v0 t1 v1 mid Hl Hw Hz. unfold calculate_trend, min_data_points.
    rewrite bool_decide_eq_false_2 by lia. rewrite Hw.
    rewrite bool_decide_eq_false_2 by (rewrite length_cons, length_app; simpl; lia).
    rewrite !last_map_snoc. simpl.
    destruct (Qeq_bool (t1 - t0) 0) eqn:Hb.
    - apply Qeq_bool_iff in Hb. contradiction.
    - reflexivity. }
  split.
  - intros m Hl. unfold analyze_patterns. rewrite (Hshort _ _ Hl).
    rewrite bool_decide_eq_false_2 by (vm_compute; discriminate). simpl.
    rewrite !elem_of_app.
    intros [H | [H | H]]; revert H;
      repeat (case_match; simpl); set_solver.
  - intros m Hl. unfold analyze_patterns. rewrite (Hshort _ _ Hl).
    rewrite (bool_decide_eq_false_2 (disk_growth_threshold < 0))
      by (vm_compute; discriminate). simpl.
    rewrite !elem_of_app.
    intros [H | [H | H]]; revert H;
      repeat (case_match; simpl); set_solver.
Qed.

Lemma calculate_trend_spec_witness :
  let data : history := [(0, 0); (10, 1); (20, 2); (30, 3); (40, 4)] in
  (5 <= length data)%nat /\
  in_window data 3600 40 = (0, 0) :: [(10, 1); (20, 2); (30, 3)] ++ [(40, 4)] /\
  ~ (40 - 0 == 0) /\
  calculate_trend data 3600 40 = (4 - 0) / (40 - 0) * 3600.
Proof.
  intros data.
  assert (H1 : (5 <= length data)%nat) by (simpl; lia).
  assert (H2 : in_window data 3600 40 = (0, 0) :: [(10, 1); (20, 2); (30, 3)] ++ [(40, 4)])
    by (vm_compute; reflexivity).
  assert (H3 : ~ (40 - 0 == 0)) by (vm_compute; discriminate).
  split; [exact H1|]. split; [exact H2|]. split; [exact H3|].
  destruct (calculate_trend_spec data 3600 40) as (_ & _ & _ & Hf & _).
  exact (Hf 0 0 40 4 [(10, 1); (20, 2); (30, 3)] H1 H2 H3).
Defined.

(** ** Further properties of the monitor *)






Lemma cleanup_blocked (acts : list (action * Q)) (s : maintenance) :
  Forall (fun p => is_cleanup p.1 = true -> p.2 - last_cleanup_time s < cleanup_cooldown) acts ->
  filter (fun a => is_cleanup a = true) (perform_actions acts s).2 = [] /\
  last_cleanup_time (perform_actions acts s).1 = last_cleanup_time s.
Proof.
  revert s. induction acts as [|[a t] acts IH]; intros s Hall; [split; reflexivity|].
  inversion Hall as [|? ? Hat Hrest]; subst. simpl in Hat.
  simpl.
  destruct a; simpl in Hat.
  - unfold schedule_cleanup. rewrite bool_decide_eq_true_2 by (apply Hat; reflexivity).
    destruct (IH s Hrest) as [Hf Hl].
    destruct (perform_actions acts s) as [s2 done_]. simpl in *. split; assumption.
  - destruct (IH s Hrest) as [Hf Hl].
    destruct (perform_actions acts s) as [s2 done_]. simpl in *.
    rewrite filter_cons_False by (simpl; discriminate). split; assumption.
  - unfold schedule_cleanup. rewrite bool_decide_eq_true_2 by (apply Hat; reflexivity).
    destruct (IH s Hrest) as [Hf Hl].
    destruct (perform_actions acts s) as [s2 done_]. simpl in *. split; assumption.
  - unfold schedule_error_mitigation.
    set (s1 := if bool_decide (t - last_restart_time s < restart_cooldown)
               then (s, false) else (mkMaintenance (last_cleanup_time s) t, true)).
    assert (Hs1 : last_cleanup_time s1.1 = last_cleanup_time s)
      by (unfold s1; case_bool_decide; reflexivity).
    assert (Hrest' : Forall (fun p => is_cleanup p.1 = true ->
                       p.2 - last_cleanup_time s1.1 < cleanup_cooldown) acts)
      by (rewrite Hs1; exact Hrest).
    destruct (IH s1.1 Hrest') as [Hf Hl].
    destruct s1 as [s1 ran]. simpl in *.
    destruct (perform_actions acts s1) as [s2 done_]. simpl in *.
    split; [|congruence].
    destruct ran; [rewrite filter_cons_False by (simpl; discriminate)|]; exact Hf.
Qed.

(** X13: [_schedule_memory_cleanup] and [_schedule_disk_cleanup] share
    [_last_cleanup_time]: when the actions scheduled by the analysis are
    carried out in any order, with every cleanup's clock reading inside
    one window of 3600 s, at most one memory or disk cleanup runs. *)
Theorem one_cleanup_per_hour (acts : list (action * Q)) (s : maintenance) (t0 : Q) :
  Forall (fun p => is_cleanup p.1 = true -> t0 <= p.2 < t0 + cleanup_cooldown) acts ->
  (length (filter (fun a => is_cleanup a = true) (perform_actions acts s).2) <= 1)%nat.
Proof.
  revert s. induction acts as [|[a t] acts IH]; intros s Hall; [simpl; lia|].
  inversion Hall as [|? ? Hat Hrest]; subst. simpl in Hat.
  assert (Hcase : forall s1 : maintenance, t0 <= t -> last_cleanup_time s1 = t ->
            filter (fun a => is_cleanup a = true) (perform_actions acts s1).2 = []).
  { intros s1 Ht0 Hs1. apply cleanup_blocked. rewrite Hs1.
    eapply Forall_impl; [exact Hrest|]. intros [a' t'] H Hc. simpl in *.
    specialize (H Hc). unfold cleanup_cooldown in *. lra. }
  simpl. destruct a.
  - unfold schedule_cleanup. case_bool_decide.
    + specialize (IH s Hrest). destruct (perform_actions acts s) as [s2 done_]. exact IH.
    + specialize (Hcase (mkMaintenance t (last_restart_time s))
        (proj1 (Hat eq_refl)) eq_refl).
      destruct (perform_actions acts _) as [s2 done_]. simpl in *.
      rewrite Hcase. simpl. lia.
  - specialize (IH s Hrest). destruct (perform_actions acts s) as [s2 done_]. simpl in *.
    rewrite filter_cons_False by (simpl; discriminate). exact IH.
  - unfold schedule_cleanup. case_bool_decide.
    + specialize (IH s Hrest). destruct (perform_actions acts s) as [s2 done_]. exact IH.
    + specialize (Hcase (mkMaintenance t (last_restart_time s))
        (proj1 (Hat eq_refl)) eq_refl).
      destruct (perform_actions acts _) as [s2 done_]. simpl in *.
      rewrite Hcase. simpl. lia.
  - unfold schedule_error_mitigation. case_bool_decide.
    + specialize (IH s Hrest). destruct (perform_actions acts s) as [s2 done_]. exact IH.
    + specialize (IH (mkMaintenance (last_cleanup_time s) t) Hrest).
      destruct (perform_actions acts _) as [s2 done_]. simpl in *.
      rewrite filter_cons_False by (simpl; discriminate). exact IH.
Qed.

Lemma one_cleanup_per_hour_witness :
  (perform_actions [(MemoryCleanup, 10000); (ErrorMitigation, 10001); (DiskCleanup, 10002)]
     (mkMaintenance 0 0)).2 = [MemoryCleanup; ErrorMitigation] /\
  le (length (filter (fun a => is_cleanup a = true)
     (perform_actions [(MemoryCleanup, 10000); (ErrorMitigation, 10001); (DiskCleanup, 10002)]
        (mkMaintenance 0 0)).2)) 1.
Proof.
  split; [vm_compute; reflexivity|].
  apply (one_cleanup_per_hour _ (mkMaintenance 0 0) 10000).
  constructor; [simpl; intros _; unfold cleanup_cooldown; lra|].
  constructor; [simpl; discriminate|].
  constructor; [simpl; intros _; unfold cleanup_cooldown; lra|].
  constructor.
Defined.

(** X14: the [cleanup_cooldown_remaining] and
    [restart_cooldown_remaining] fields of [get_prediction_status] are 0
    exactly when, at the same clock reading, the corresponding
    [_schedule_*] action would run rather than skip on cooldown. *)
Theorem cooldown_remaining_consistent (t : Q) (s : maintenance) :
  (cleanup_cooldown_remaining t s == 0 <-> (schedule_cleanup t s).2 = true) /\
  (restart_cooldown_remaining t s == 0 <-> (schedule_error_mitigation t s).2 = true).
Proof.
  unfold cleanup_cooldown_remaining, schedule_cleanup,
    restart_cooldown_remaining, schedule_error_mitigation,
    cleanup_cooldown, restart_cooldown.
  split.
  - case_bool_decide as H1; case_bool_decide as H2; simpl;
      split; intros H; try discriminate; try reflexivity; lra.
  - case_bool_decide as H1; case_bool_decide as H2; simpl;
      split; intros H; try discriminate; try reflexivity; lra.
Qed.

Lemma cooldown_remaining_consistent_witness :
  cleanup_cooldown_remaining 8000 (mkMaintenance 1000 0) == 0 /\
  (schedule_error_mitigation 8000 (mkMaintenance 1000 0)).2 = true.
Proof.
  destruct (cooldown_remaining_consistent 8000 (mkMaintenance 1000 0)) as [[_ H1] [H2 _]].
  split; [apply H1; reflexivity|]. apply H2. vm_compute. reflexivity.
Defined.

Lemma record_errors_history (errs : list (Q * string)) (m : monitor) :
  error_history (fold_left (fun m p => record_error p.1 p.2 m) errs m)
  = error_history m ++ errs.
Proof.
  revert m. induction errs as [|[t e] errs IH]; intros m; simpl.
  - rewrite app_nil_r. reflexivity.
  - rewrite IH. simpl. rewrite <- app_assoc. reflexivity.
Qed.

(** X15: recording more than 3 errors ([record_error]) whose timestamps
    are within the last hour makes [_analyze_patterns] at that time
    schedule the error mitigation, whatever else the monitor holds. *)
Theorem frequent_errors_trigger_mitigation (m : monitor) (errs : list (Q * string)) (t : Q) :
  Forall (fun p => t - 3600 < p.1) errs ->
  (3 < length errs)%nat ->
  ErrorMitigation ∈ analyze_patterns (fold_left (fun m p => record_error p.1 p.2 m) errs m) t.
Proof.
  intros Hall Hlen. unfold analyze_patterns. rewrite record_errors_history.
  assert (Hkeep : filter (fun p : Q * string => bool_decide (t - 3600 < p.1)) errs = errs).
  { clear Hlen. induction errs as [|p errs IH]; [reflexivity|].
    inversion Hall as [|? ? Hp Hrest]; subst.
    rewrite filter_cons_True by (apply bool_decide_pack; exact Hp).
    rewrite (IH Hrest). reflexivity. }
  rewrite (bool_decide_eq_true_2 (error_frequency_threshold < _)%nat).
  - apply elem_of_app. right. apply elem_of_app. right. apply elem_of_app. right. left.
  - rewrite filter_app, Hkeep, length_app.
    unfold error_frequency_threshold. lia.
Qed.

Lemma frequent_errors_trigger_mitigation_witness :
  let errs := [(100, "timeout"); (200, "timeout"); (300, "generic"); (400, "timeout")]%string in
  ErrorMitigation ∈ analyze_patterns
    (fold_left (fun m p => record_error p.1 p.2 m) errs (mkMonitor [] [] [] [])) 1000.
Proof.
  intros errs.
  apply frequent_errors_trigger_mitigation; [repeat constructor; simpl; lra | simpl; lia].
Defined.

End PredictiveProofs.

Module RecoveryProofs.
Import Recovery.

(** ** C7 *)

(** C7 (counterexample): during the 60 s recovery cooldown, and once 5
    recovery attempts have been made, [handle_error] returns at once and
    the Predictive Maintenance error log is left unchanged. *)
Lemma handle_error_counterexample :
  let pm := Predictive.mkMonitor [] [] [] [] in
  let e := mkError "Connection refused" true in
  (handle_error 110 5 (fun _ => Some true) e "inference" (mkManager 0 100 pm)).1
  = mkManager 0 100 pm /\
  Predictive.error_history
    (predictive_maintenance
       (handle_error 1000 5 (fun _ => Some true) e "inference" (mkManager 5 100 pm)).1)
  = [] /\
  identify_error_pattern e = "connection_refused"%string.
Proof. split; [reflexivity|]. split; vm_compute; reflexivity. Qed.

(** C7 (amended): [handle_error] forwards the classified pattern of the
    error to the Predictive Maintenance error log exactly when it gets
    past its guards: within the 60 s cooldown, or once 5 recovery
    attempts have been made, it returns False with the manager (and the
    log) unchanged; otherwise the pattern is appended to the log with the
    current time, whatever the recovery strategy then does. *)
Theorem handle_error_forwarding (loop_time : Z) (wall_time : Q)
    (strategy : string -> option bool) (e : error) (context : string)
    (rm : manager) :
  (loop_time - last_recovery_time rm < recovery_cooldown ->
   handle_error loop_time wall_time strategy e context rm = (rm, false)) /\
  (recovery_attempts rm >= max_recovery_attempts ->
   handle_error loop_time wall_time strategy e context rm = (rm, false)) /\
  (recovery_cooldown <= loop_time - last_recovery_time rm ->
   recovery_attempts rm < max_recovery_attempts ->
   Predictive.error_history
     (predictive_maintenance (handle_error loop_time wall_time strategy e context rm).1)
   = Predictive.error_history (predictive_maintenance rm)
     ++ [(wall_time, identify_error_pattern e)]).
Proof.
  unfold handle_error. split; [|split].
  - intros H. rewrite bool_decide_eq_true_2 by exact H. reflexivity.
  - intros H. case_bool_decide; [reflexivity|].
    rewrite bool_decide_eq_true_2 by exact H. reflexivity.
  - intros H1 H2.
    rewrite bool_decide_eq_false_2 by lia.
    rewrite bool_decide_eq_false_2 by lia.
    destruct (strategy (identify_error_pattern e)) as [[|]|]; reflexivity.
Qed.

Lemma handle_error_forwarding_witness :
  let pm := Predictive.mkMonitor [] [] [] [] in
  let e := mkError "Request timeout" true in
  let rm := mkManager 0 0 pm in
  (recovery_cooldown <= 100 - last_recovery_time rm /\
   recovery_attempts rm < max_recovery_attempts) /\
  Predictive.error_history
    (predictive_maintenance (handle_error 100 7 (fun _ => Some false) e "inference" rm).1)
  = Predictive.error_history (predictive_maintenance rm)
    ++ [(7%Q, identify_error_pattern e)].
Proof.
  intros pm e rm.
  assert (H1 : recovery_cooldown <= 100 - last_recovery_time rm) by (simpl; unfold recovery_cooldown; lia).
  assert (H2 : recovery_attempts rm < max_recovery_attempts) by (simpl; unfold max_recovery_attempts; lia).
  split; [split; assumption|].
  destruct (handle_error_forwarding 100 7 (fun _ => Some false) e "inference" rm)
    as (_ & _ & H).
  exact (H H1 H2).
Defined.


(** ** Further properties of the recovery manager *)

(** X16: [handle_error] does anything only when [get_recovery_status]
    at the same loop time reports the cooldown inactive and recovery
    available; otherwise it returns [False] and leaves the manager as it
    was.  When it does act, it records the error's pattern with the wall
    clock reading in the Predictive Maintenance error log, stamps the
    recovery time, and returns [True] exactly when the strategy for that
    pattern returns true, which resets the attempt counter to 0; otherwise
    the counter grows by one. *)
Theorem handle_error_guard_status (loop_time : Z) (wall_time : Q)
    (strategy : string -> option bool) (e : error) (context : string) (rm : manager) :
  let '(rm', ok) := handle_error loop_time wall_time strategy e context rm in
  (recovery_status loop_time rm <> (false, true) -> rm' = rm /\ ok = false) /\
  (recovery_status loop_time rm = (false, true) ->
     last_recovery_time rm' = loop_time /\
     Predictive.error_history (predictive_maintenance rm')
       = Predictive.error_history (predictive_maintenance rm)
         ++ [(wall_time, identify_error_pattern e)] /\
     (ok = true <-> strategy (identify_error_pattern e) = Some true) /\
     recovery_attempts rm' = (if ok then 0 else recovery_attempts rm + 1)).
Proof.
  unfold handle_error, recovery_status.
  case_bool_decide as Hc; [split; [intros _; split; reflexivity | discriminate]|].
  case_bool_decide as Ha; case_bool_decide as Ha'; try lia.
  - split; [intros _; split; reflexivity | discriminate].
  - destruct (strategy (identify_error_pattern e)) as [[|]|] eqn:Hs; simpl;
      (split; [intros H; exfalso; apply H; reflexivity | intros _]);
      repeat split; try reflexivity; try discriminate; intros H; discriminate.
Qed.

Lemma handle_error_guard_status_witness :
  let rm := mkManager 2 0 (Predictive.mkMonitor [] [] [] []) in
  let e := mkError "Connection refused by peer" true in
  recovery_status 100 rm = (false, true) /\
  handle_error 100 1700 (fun _ => Some true) e "" rm
  = (mkManager 0 100 (Predictive.mkMonitor [] [] [] [(1700%Q, "connection_refused"%string)]), true).
Proof.
  intros rm e.
  pose proof (handle_error_guard_status 100 1700 (fun _ => Some true) e "" rm) as H.
  destruct (handle_error 100 1700 _ e "" rm) as [rm' ok] eqn:E.
  destruct H as [_ H].
  assert (Hs : recovery_status 100 rm = (false, true)) by reflexivity.
  destruct (H Hs) as (_ & _ & _ & _).
  split; [exact Hs | rewrite <- E; vm_compute; reflexivity].
Defined.

Lemma handle_errors_locked (calls : list (Z * Q * (string -> option bool) * error * string))
    (rm : manager) :
  recovery_attempts rm >= max_recovery_attempts ->
  handle_errors calls rm = (rm, map (fun _ => false) calls).
Proof.
  intros Ha. induction calls as [|[[[[lt wt] st] e] ctx] calls IH]; [reflexivity|].
  simpl. unfold handle_error.
  case_bool_decide; [rewrite IH; reflexivity|].
  rewrite bool_decide_eq_true_2 by exact Ha. rewrite IH. reflexivity.
Qed.

(** X17: once [_recovery_attempts] has reached the maximum of 5,
    every later [handle_error] call returns [False] without changing the
    manager or the error log, whatever the clocks and errors, until
    [reset_recovery_state]; after the reset, [get_recovery_status] at any
    loop time of at least 60 reports the cooldown inactive and recovery
    available again. *)
Theorem lockout_until_reset (calls : list (Z * Q * (string -> option bool) * error * string))
    (rm : manager) (t : Z) :
  recovery_attempts rm >= max_recovery_attempts ->
  handle_errors calls rm = (rm, map (fun _ => false) calls) /\
  (60 <= t -> recovery_status t (reset_recovery_state rm) = (false, true)).
Proof.
  intros Ha. split; [exact (handle_errors_locked calls rm Ha)|].
  intros Ht. unfold recovery_status, reset_recovery_state, recovery_cooldown,
    max_recovery_attempts. cbn [recovery_attempts last_recovery_time].
  rewrite bool_decide_eq_false_2 by lia.
  rewrite bool_decide_eq_true_2 by lia. reflexivity.
Qed.

Lemma lockout_until_reset_witness :
  let rm := mkManager 5 0 (Predictive.mkMonitor [] [] [] []) in
  let calls := [(1000, 1700%Q, (fun _ : string => Some true), mkError "timeout" false, ""%string)] in
  handle_errors calls rm = (rm, [false]) /\
  recovery_status 1000 (reset_recovery_state rm) = (false, true).
Proof.
  intros rm calls.
  destruct (lockout_until_reset calls rm 1000 ltac:(vm_compute; discriminate)) as [H1 H2].
  split; [exact H1 | apply H2; lia].
Defined.

End RecoveryProofs.
